(** * AdventureAI backend: the database-operations layer

    A shallow embedding of [Backend/app/api/v1/database/operations.py]
    (class [DatabaseOperations]) and the properties of its token lifecycle
    and of its scene merge.

    The SQLAlchemy session [self.db] is a pair of a committed store and a
    working store; a table is the list of its rows in insertion order, a
    [select]/[update]/[delete] with a [where] clause is a filter or a map
    over that list.  A Python exception is a value of [exn]; an operation
    that raises keeps the state it reached before raising.  *)

From Stdlib Require Import String Ascii List Bool Arith Lia.
Import ListNotations.
Open Scope string_scope.
Open Scope list_scope.

(** ** Exceptions *)

Inductive exn : Type :=
| HTTPException (status_code : nat) (detail : string)
| IntegrityError          (* sqlalchemy.exc.IntegrityError / psycopg2 UniqueViolation *)
| MultipleResultsFound    (* scalar_one_or_none() on more than one row *)
| NoResultFound           (* scalar_one() on no row *)
| AttributeError          (* attribute access on None *)
| TypeError               (* None + list *)
| ValueError              (* bcrypt: Invalid salt *)
| DBAPIError              (* the database rejects the statement's syntax *)
| PendingRollbackError.   (* commit() on a Session whose flush failed *)

(** ** Regular expressions (the fragment [_validate_email] uses) *)

Module Re.

Inductive re : Type :=
| Void
| Eps
| Cls (p : ascii -> bool)
| Cat (a b : re)
| Alt (a b : re)
| Star (a : re).

Fixpoint nullable (r : re) : bool :=
match r with
| Void => false
| Eps => true
| Cls _ => false
| Cat a b => nullable a && nullable b
| Alt a b => nullable a || nullable b
| Star _ => true
end.

Fixpoint deriv (c : ascii) (r : re) : re :=
match r with
| Void => Void
| Eps => Void
| Cls p => if p c then Eps else Void
| Cat a b =>
    if nullable a then Alt (Cat (deriv c a) b) (deriv c b)
    else Cat (deriv c a) b
| Alt a b => Alt (deriv c a) (deriv c b)
| Star a => Cat (deriv c a) (Star a)
end.

(** [fullmatch r s]: the whole of [s] is in the language of [r]. *)
Fixpoint fullmatch (r : re) (s : string) : bool :=
match s with
| EmptyString => nullable r
| String c s' => fullmatch (deriv c r) s'
end.

Definition Plus (r : re) : re := Cat r (Star r).
Definition Chr (c : ascii) : re := Cls (Ascii.eqb c).

Definition in_range (lo hi c : ascii) : bool :=
Nat.leb (nat_of_ascii lo) (nat_of_ascii c) && Nat.leb (nat_of_ascii c) (nat_of_ascii hi).

Definition one_of (s : string) (c : ascii) : bool :=
existsb (Ascii.eqb c) (list_ascii_of_string s).

Definition alpha (c : ascii) : bool := in_range "a"%char "z"%char c || in_range "A"%char "Z"%char c.
Definition alnum (c : ascii) : bool := alpha c || in_range "0"%char "9"%char c.

(** Python's [$] (without MULTILINE) matches at the end of the string and
  also just before a newline that ends the string. *)
Definition dollar : re := Alt Eps (Chr "010"%char).

(** [re.match(pattern, s)] for a pattern of the shape [^body$]. *)
Definition match_anchored (body : re) (s : string) : bool :=
fullmatch (Cat body dollar) s.

End Re.

(** ** The state-and-exception monad *)

Inductive Result (A : Type) : Type :=
| Ok (a : A)
| Raise (e : exn).
Arguments Ok {A} a.
Arguments Raise {A} e.

Section Monad.
Variable W : Type.

Definition M (A : Type) : Type := W -> Result A * W.

Definition ret {A} (a : A) : M A := fun w => (Ok a, w).

Definition raise {A} (e : exn) : M A := fun w => (Raise e, w).

Definition bind {A B} (m : M A) (f : A -> M B) : M B :=
  fun w =>
    match m w with
    | (Ok a, w') => f a w'
    | (Raise e, w') => (Raise e, w')
    end.

(** [try m except IntegrityError: h] *)
Definition try_except_IntegrityError {A} (m : M A) (h : M A) : M A :=
  fun w =>
    match m w with
    | (Raise IntegrityError, w') => h w'
    | r => r
    end.

Definition gets {A} (f : W -> A) : M A := fun w => (Ok (f w), w).
Definition modify (f : W -> W) : M unit := fun w => (Ok tt, f w).
End Monad.

Arguments ret {W A} a.
Arguments raise {W A} e.
Arguments bind {W A B} m f.
Arguments try_except_IntegrityError {W A} m h.
Arguments gets {W A} f.
Arguments modify {W} f.

Notation "x <- m ;; k" := (bind m (fun x => k))
  (at level 61, m at next level, right associativity).
Notation "m ;;; k" := (bind m (fun _ => k))
  (at level 61, right associativity).

(** ** Rows

    Modelled from the spec: the table declarations ([models.py]) are absent.
    A row carries the attributes the spec gives the entity, under the column
    names [operations.py] reads and writes; an id is a number, a timestamp a
    number of minutes, a scene and an inventory item opaque strings. *)

Definition UUID : Type := nat.
Definition Timestamp : Type := nat.   (* minutes *)
Definition Scene : Type := string.
Definition Inventory : Type := list string.

Module User.
Record t : Type := mk {
  id : UUID;
  email : string;
  password : string;              (* the stored hash *)
  is_active : bool;
  first_name : option string;
  last_name : option string;
  created_at : option Timestamp }.
End User.

Module AccessToken.
Record t : Type := mk {
  token : string;
  expires_at : string;
  user_id : UUID }.
End AccessToken.

Module EmailToken.
Record t : Type := mk {
  email : string;
  password : string;              (* the stored hash *)
  token : string;
  created_at : Timestamp }.
End EmailToken.

Module StartingStory.
Record t : Type := mk {
  id : string;
  story : option string;
  image : option string }.
End StartingStory.

Module GameSession.
Record t : Type := mk {
  id : nat;
  user_id : UUID;
  last_image : string;
  protagonist_name : string;
  session_name : string;
  inventory : Inventory;
  stories : list Scene;
  updated_at : Timestamp }.
End GameSession.

(** ** Request payloads

    Modelled from the spec: the pydantic models ([schemas.py]) are absent; a
    payload carries the fields [operations.py] reads off it. *)

Record UserCreate : Type := { uc_email : string; uc_password : string }.
Record UserLogin : Type := { ul_email : string; ul_password : string }.

(** Modelled from the spec: [UserUpdate] is declared in [schemas.py], which is
    absent; its fields are the mutable attributes the spec gives a User, each
    optional (a sparse update). *)
Record UserUpdate : Type := {
  uu_email : option string;
  uu_password : option string;
  uu_first_name : option string;
  uu_last_name : option string }.

Record GameSessionPayload : Type := {
  gp_id : option nat;
  gp_protagonist_name : string;
  gp_session_name : string;
  gp_inventory : Inventory;
  gp_scenes : list Scene }.

Record SaveGame : Type := { sg_game_session : GameSessionPayload; sg_image : string }.

(** ** The relational store and the session on it *)

Record Store : Type := {
  users : list User.t;
  tokens : list AccessToken.t;
  email_tokens : list EmailToken.t;
  starting_stories : list StartingStory.t;
  game_sessions : list GameSession.t }.

Definition empty_store : Store :=
  {| users := []; tokens := []; email_tokens := [];
     starting_stories := []; game_sessions := [] |}.

Definition with_users (f : list User.t -> list User.t) (s : Store) : Store :=
  {| users := f (users s); tokens := tokens s; email_tokens := email_tokens s;
     starting_stories := starting_stories s; game_sessions := game_sessions s |}.
Definition with_tokens (f : list AccessToken.t -> list AccessToken.t) (s : Store) : Store :=
  {| users := users s; tokens := f (tokens s); email_tokens := email_tokens s;
     starting_stories := starting_stories s; game_sessions := game_sessions s |}.
Definition with_email_tokens (f : list EmailToken.t -> list EmailToken.t) (s : Store) : Store :=
  {| users := users s; tokens := tokens s; email_tokens := f (email_tokens s);
     starting_stories := starting_stories s; game_sessions := game_sessions s |}.
Definition with_game_sessions (f : list GameSession.t -> list GameSession.t) (s : Store) : Store :=
  {| users := users s; tokens := tokens s; email_tokens := email_tokens s;
     starting_stories := starting_stories s; game_sessions := f (game_sessions s) |}.

(** [self.db] and what surrounds it: [committed] is what the database holds,
    [working] what the open transaction sees, [journal] every state that was
    committed (newest first), [entropy] the number of random draws made so
    far, [now] the clock. *)
Record World : Type := {
  committed : Store;
  working : Store;
  journal : list Store;
  entropy : nat;
  now : Timestamp }.

Definition fresh_world (s : Store) (t : Timestamp) : World :=
  {| committed := s; working := s; journal := []; entropy := 0; now := t |}.

Definition on_working (f : Store -> Store) (w : World) : World :=
  {| committed := committed w; working := f (working w); journal := journal w;
     entropy := entropy w; now := now w |}.

Definition do_commit (w : World) : World :=
  {| committed := working w; working := working w; journal := working w :: journal w;
     entropy := entropy w; now := now w |}.

Definition do_rollback (w : World) : World :=
  {| committed := committed w; working := committed w; journal := journal w;
     entropy := entropy w; now := now w |}.

Definition do_draw (w : World) : World :=
  {| committed := committed w; working := working w; journal := journal w;
     entropy := S (entropy w); now := now w |}.

Definition DB : Type -> Type := M World.

Definition commit : DB unit := modify do_commit.        (* self.db.commit() *)
Definition rollback : DB unit := modify do_rollback.    (* self.db.rollback() *)
Definition execute (f : Store -> Store) : DB unit := modify (on_working f).
Definition query {A} (f : Store -> A) : DB A := gets (fun w => f (working w)).
Definition draw : DB nat := fun w => (Ok (entropy w), do_draw w).
Definition clock : DB Timestamp := gets now.

(** [result.scalar_one_or_none()] *)
Definition scalar_one_or_none {A} (rows : list A) : DB (option A) :=
  match rows with
  | [] => ret None
  | [x] => ret (Some x)
  | _ => raise MultipleResultsFound
  end.

(** [result.scalar_one()] *)
Definition scalar_one {A} (rows : list A) : DB A :=
  match rows with
  | [] => raise NoResultFound
  | [x] => ret x
  | _ => raise MultipleResultsFound
  end.

(** ** Collaborators

    [generate_token] and [_hash_password] are methods of the class; the
    sources give them placeholder bodies ([source_stubs] below).  The
    operations call them through [self], so they are taken through an
    interface, together with the library calls [bcrypt.checkpw],
    [uuid.uuid4] and [strftime].  A random primitive takes the number of
    draws made before it.  [bcrypt.checkpw] answers on a stored string
    that is a bcrypt hash and raises [ValueError] on one that is not:
    [checkpw] gives [None] where it raises. *)
Class Primitives : Type := {
  generate_token : nat -> string;
  _hash_password : string -> string;
  checkpw : string -> string -> option bool;
  uuid4 : nat -> UUID;
  strftime_Ymd : Timestamp -> string }.

(** The table declarations are absent.  The spec keys a User by its id and
    makes its email unique, and keys AccessToken and EmailToken by the token
    string: those constraints are fixed below.  Whether the store also
    rejects a second EmailToken row for one email (the collision the handler
    in [create_email_token] comments on: "If the user registers again before
    activating the old link") is a parameter. *)
Class Schema : Type := { email_tokens_email_unique : bool }.

(** The bodies the sources give. *)
Definition generate_token_source : string := "Wouldn't you like to know!".
Definition _hash_password_source (password : string) : string := "Super secret".

(** ** Integrity constraints of the store

    Modelled from the spec: the unique indexes are part of the absent table
    declarations.  An insert or an update that would repeat a unique key is
    rejected with [IntegrityError] and changes nothing. *)

Definition occurrences {A} (key : A -> string) (k : string) (tbl : list A) : nat :=
  length (filter (fun r => String.eqb (key r) k) tbl).

(** An [update] of the rows selected by [p] with [f] violates the unique
    index on [key] when a row whose key changes lands on a key that occurs
    more than once afterwards. *)
Definition update_violates {A} (key : A -> string) (p : A -> bool) (f : A -> A)
    (tbl : list A) : bool :=
  let tbl' := map (fun r => if p r then f r else r) tbl in
  existsb (fun r => p r && negb (String.eqb (key (f r)) (key r))
                    && Nat.ltb 1 (occurrences key (key (f r)) tbl')) tbl.

Definition user_insert_violates (u : User.t) (tbl : list User.t) : bool :=
  existsb (fun r => Nat.eqb (User.id r) (User.id u)
                    || String.eqb (User.email r) (User.email u)) tbl.

Definition token_insert_violates (t : AccessToken.t) (tbl : list AccessToken.t) : bool :=
  existsb (fun r => String.eqb (AccessToken.token r) (AccessToken.token t)) tbl.

Definition email_token_insert_violates {Sch : Schema} (t : EmailToken.t)
    (tbl : list EmailToken.t) : bool :=
  existsb (fun r => String.eqb (EmailToken.token r) (EmailToken.token t)
                    || (email_tokens_email_unique
                        && String.eqb (EmailToken.email r) (EmailToken.email t))) tbl.

(** [bool(s)] for a Python string. *)
Definition truthy (s : string) : bool := negb (String.eqb s "").

(** ** Projections returned to the client *)

Record StartStoryResponse : Type := {
  ssr_image : string; ssr_story : string; ssr_id : string }.

Record SaveSummary : Type := {
  ss_id : nat; ss_protagonist_name : string; ss_inventory : Inventory;
  ss_session_name : string; ss_stories : list Scene; ss_image : string;
  ss_last_played : Timestamp }.

Record Profile : Type := {
  pr_email : string; pr_first_name : string; pr_last_name : string;
  pr_registered_at : option string }.

(** ** The operations of [DatabaseOperations] *)

Section Operations.
Context {P : Primitives} {Sch : Schema}.

(** *** Token manager and user manager *)

Definition logout_user (user_id : UUID) : DB unit :=
  execute (with_tokens
             (filter (fun t => negb (Nat.eqb (AccessToken.user_id t) user_id))));;;
  commit.

(** [self.db.add(db_token); self.db.commit()]: the row is flushed by the
    commit, which raises and rolls back when the insert is rejected. *)
Definition add_token_and_commit (db_token : AccessToken.t) : DB unit :=
  tbl <- query tokens;;
  if token_insert_violates db_token tbl
  then rollback;;; raise IntegrityError
  else execute (with_tokens (fun l => l ++ [db_token]));;; commit.

Definition _create_access_token (user_id : UUID) : DB string :=
  logout_user user_id;;;
  n <- draw;;
  let token := generate_token n in
  let expires_at := "some unknown timestamp" in
  let db_token := AccessToken.mk token expires_at user_id in
  add_token_and_commit db_token;;;
  ret token.

Definition validate_token (token : string) : DB UUID :=
  rows <- query (fun s => filter (fun t => String.eqb (AccessToken.token t) token)
                                 (tokens s));;
  token_data <- scalar_one_or_none rows;;
  match token_data with
  | None => raise (HTTPException 401 "Invalid token")
  | Some td => ret (AccessToken.user_id td)
  end.

Definition set_is_active (b : bool) (u : User.t) : User.t :=
  User.mk (User.id u) (User.email u) (User.password u) b
          (User.first_name u) (User.last_name u) (User.created_at u).

Definition set_password (pw : string) (u : User.t) : User.t :=
  User.mk (User.id u) (User.email u) pw (User.is_active u)
          (User.first_name u) (User.last_name u) (User.created_at u).

Definition has_id (user_id : UUID) (u : User.t) : bool := Nat.eqb (User.id u) user_id.
Definition has_email (email : string) (u : User.t) : bool := String.eqb (User.email u) email.

(** [update(users).where(id == user_id).values(...).returning(users)] *)
Definition update_users_returning (p : User.t -> bool) (f : User.t -> User.t)
    : DB (list User.t) :=
  tbl <- query users;;
  if update_violates User.email p f tbl
  then raise IntegrityError
  else execute (with_users (map (fun r => if p r then f r else r)));;;
       ret (map f (filter p tbl)).

Definition activate_user (user_id : UUID) : DB unit :=
  rows <- update_users_returning (has_id user_id) (set_is_active true);;
  updated_user <- scalar_one_or_none rows;;
  commit;;;
  match updated_user with
  | None => logout_user user_id;;; raise (HTTPException 404 "User not found")
  | Some _ => ret tt
  end.

Definition deactivate_user (user_id : UUID) : DB unit :=
  logout_user user_id;;;
  rows <- update_users_returning (has_id user_id) (set_is_active false);;
  updated_user <- scalar_one_or_none rows;;
  commit;;;
  match updated_user with
  | None => raise (HTTPException 404 "User not found")
  | Some _ => ret tt
  end.

Definition login_user (user : UserLogin) : DB string :=
  rows <- query (fun s => filter (has_email (ul_email user)) (users s));;
  db_user <- scalar_one_or_none rows;;
  match db_user with
  | None => raise (HTTPException 404 "User not found")
  | Some db_user =>
      verified <- match checkpw (ul_password user) (User.password db_user) with
                  | Some verified => ret verified
                  | None => raise ValueError
                  end;;
      if negb verified
      then raise (HTTPException 401 "Invalid credentials")
      else
        (if negb (User.is_active db_user)
         then activate_user (User.id db_user) else ret tt);;;
        _create_access_token (User.id db_user)
  end.

(** [user.model_dump().items()] *)
Definition model_dump (user : UserUpdate) : list (string * option string) :=
  [("email", uu_email user); ("password", uu_password user);
   ("first_name", uu_first_name user); ("last_name", uu_last_name user)].

Definition drop_none (items : list (string * option string)) : list (string * string) :=
  flat_map (fun kv => match snd kv with
                      | Some v => [(fst kv, v)]
                      | None => []
                      end) items.

Definition hash_password_entry (kv : string * string) : string * string :=
  if String.eqb (fst kv) "password" then (fst kv, _hash_password (snd kv)) else kv.

(** The dictionary [nud] of [update_user]. *)
Definition new_user_data (user : UserUpdate) : list (string * string) :=
  map hash_password_entry (drop_none (model_dump user)).

Definition set_column (u : User.t) (kv : string * string) : User.t :=
  let (k, v) := kv in
  if String.eqb k "email" then
    User.mk (User.id u) v (User.password u) (User.is_active u)
            (User.first_name u) (User.last_name u) (User.created_at u)
  else if String.eqb k "password" then set_password v u
  else if String.eqb k "first_name" then
    User.mk (User.id u) (User.email u) (User.password u) (User.is_active u)
            (Some v) (User.last_name u) (User.created_at u)
  else if String.eqb k "last_name" then
    User.mk (User.id u) (User.email u) (User.password u) (User.is_active u)
            (User.first_name u) (Some v) (User.created_at u)
  else u.

(** [.values( **nud )] *)
Definition values (nud : list (string * string)) (u : User.t) : User.t :=
  fold_left set_column nud u.

(** [self.db.execute(update(users).where(...).values( **nud ).returning(users))]:
    with an empty [nud] the statement has no column to set, and the
    database rejects it. *)
Definition update_users_values (user_id : UUID) (nud : list (string * string))
    : DB (list User.t) :=
  match nud with
  | [] => raise DBAPIError
  | _ :: _ => update_users_returning (has_id user_id) (values nud)
  end.

Definition update_user (user_id : UUID) (user : UserUpdate) : DB User.t :=
  let nud := new_user_data user in
  rows <- update_users_values user_id nud;;
  updated_user <- scalar_one_or_none rows;;
  commit;;;
  match updated_user with
  | Some updated_user => ret updated_user
  | None => logout_user user_id;;; raise (HTTPException 404 "User not found")
  end.

Definition _delete_email_tokens (email : string) : DB unit :=
  execute (with_email_tokens
             (filter (fun t => negb (String.eqb (EmailToken.email t) email))));;;
  commit.

(** [self.db.execute(delete(users).where(...))], giving [result.rowcount]. *)
Definition delete_users (p : User.t -> bool) : DB nat :=
  rowcount <- query (fun s => length (filter p (users s)));;
  execute (with_users (filter (fun u => negb (p u))));;;
  ret rowcount.

Definition hard_delete_user (user_id : UUID) : DB string :=
  rows <- query (fun s => filter (has_id user_id) (users s));;
  user <- scalar_one_or_none rows;;
  email <- match user with
           | None => raise AttributeError          (* user.email on None *)
           | Some user => ret (User.email user)
           end;;
  logout_user user_id;;;
  rowcount <- delete_users (has_id user_id);;
  if Nat.eqb rowcount 0
  then raise (HTTPException 404 "User not found")
  else
    commit;;;
    _delete_email_tokens email;;;
    ret "User deleted successfully".

Definition local_part_char (c : ascii) : bool := Re.alnum c || Re.one_of "._%+-" c.
Definition domain_char (c : ascii) : bool := Re.alnum c || Re.one_of ".-" c.

(** [^[a-zA-Z0-9._%+-]+@[a-zA-Z0-9.-]+\.[a-zA-Z]{2,}$] without its anchors. *)
Definition email_pattern : Re.re :=
  Re.Cat (Re.Plus (Re.Cls local_part_char))
 (Re.Cat (Re.Chr "@"%char)
 (Re.Cat (Re.Plus (Re.Cls domain_char))
 (Re.Cat (Re.Chr "."%char)
 (Re.Cat (Re.Cls Re.alpha) (Re.Cat (Re.Cls Re.alpha) (Re.Star (Re.Cls Re.alpha))))))).

Definition _validate_email (email : string) : bool :=
  Re.match_anchored email_pattern email.

Definition _check_existing_user (email : string) : DB bool :=
  rows <- query (fun s => filter (has_email email) (users s));;
  existing_user <- scalar_one_or_none rows;;
  ret (match existing_user with Some _ => true | None => false end).

(** *** Email tokens *)

Definition has_token (token : string) (t : EmailToken.t) : bool :=
  String.eqb (EmailToken.token t) token.
Definition for_email (email : string) (t : EmailToken.t) : bool :=
  String.eqb (EmailToken.email t) email.

Definition _post_email_token (user : UserCreate) : DB string :=
  let hashed_pw := _hash_password (uc_password user) in
  n <- draw;;
  let token := generate_token n in
  created <- clock;;                       (* the column's default *)
  let row := EmailToken.mk (uc_email user) hashed_pw token created in
  tbl <- query email_tokens;;
  (if email_token_insert_violates row tbl
   then raise IntegrityError
   else execute (with_email_tokens (fun l => l ++ [row])));;;
  commit;;;
  ret token.

Definition create_email_token (user : UserCreate) : DB string :=
  if negb (_validate_email (uc_email user))
  then raise (HTTPException 400 "Invalid email format")
  else
    existing <- _check_existing_user (uc_email user);;
    if (existing : bool)
    then raise (HTTPException 400 "User with this email already exists")
    else
      try_except_IntegrityError
        (_post_email_token user)
        (rollback;;;
         _delete_email_tokens (uc_email user);;;
         _post_email_token user).

Definition _validate_email_token (token : string) : DB EmailToken.t :=
  rows <- query (fun s => filter (has_token token) (email_tokens s));;
  user <- scalar_one_or_none rows;;
  match user with
  | None => raise (HTTPException 404 "Token not found")
  | Some user =>
      if truthy "The token timestamp is too old"
      then _delete_email_tokens (EmailToken.email user);;;
           raise (HTTPException 401 "Token expired")
      else ret user
  end.

Definition retoken (new_token : string) (created : Timestamp) (t : EmailToken.t)
    : EmailToken.t :=
  EmailToken.mk (EmailToken.email t) (EmailToken.password t) new_token created.

Definition update_email_token (email : string) : DB string :=
  rows <- query (fun s => filter (for_email email) (email_tokens s));;
  token_data <- scalar_one_or_none rows;;
  match token_data with
  | None => raise (HTTPException 404 "Email not registered")
  | Some _ =>
      n <- draw;;
      let new_token := generate_token n in
      created <- clock;;                   (* datetime.now() *)
      tbl <- query email_tokens;;
      (if update_violates EmailToken.token (for_email email)
                          (retoken new_token created) tbl
       then raise IntegrityError
       else execute (with_email_tokens
                       (map (fun r => if for_email email r
                                      then retoken new_token created r else r))));;;
      commit;;;
      ret new_token
  end.

Definition reset_password (token password : string) : DB EmailToken.t :=
  user_data <- _validate_email_token token;;
  let hashed_pw := _hash_password password in
  execute (with_users
             (map (fun u => if has_email (EmailToken.email user_data) u
                            then set_password hashed_pw u else u)));;;
  commit;;;
  _ <- update_email_token (EmailToken.email user_data);;
  ret user_data.

(** [self.db.add(db_user); self.db.commit()].  A flush that the store
    rejects undoes the transaction and leaves the Session inactive until
    [self.db.rollback()] is called: [pending_rollback] tells that an
    earlier flush of this Session failed and was not rolled back, and
    [commit()] then raises [PendingRollbackError]. *)
Definition add_user_and_commit (pending_rollback : bool) (db_user : User.t) : DB unit :=
  if pending_rollback then raise PendingRollbackError
  else
    tbl <- query users;;
    if user_insert_violates db_user tbl
    then rollback;;; raise IntegrityError
    else execute (with_users (fun l => l ++ [db_user]));;; commit.

(** The body of [for attempt in range(3)]: [attempts] is what is left of
    the range.  The loop is left by [break] or by an exception.  The
    handler of the loop does not call [self.db.rollback()], so the
    attempts after a rejected one run on the inactive Session.  The
    columns the constructor is not given take their defaults (modelled
    from the spec: active, no names, created now). *)
Fixpoint create_user_attempts (attempts : list nat) (pending_rollback : bool)
    (user_data : EmailToken.t) : DB User.t :=
  match attempts with
  | [] => raise (HTTPException 500 "User creation failed when posting to database.")
  | attempt :: rest =>
      try_except_IntegrityError
        (n <- draw;;
         created <- clock;;
         let db_user := User.mk (uuid4 n) (EmailToken.email user_data)
                                (EmailToken.password user_data)
                                true None None (Some created) in
         add_user_and_commit pending_rollback db_user;;;
         ret db_user)
        (if Nat.eqb attempt 2
         then raise (HTTPException 500 "User creation failed when posting to database.")
         else create_user_attempts rest true user_data)
  end.

Definition create_user (token : string) : DB string :=
  user_data <- _validate_email_token token;;
  db_user <- create_user_attempts (seq 0 3) false user_data;;
  _create_access_token (User.id db_user).

(** *** Game manager *)

Definition get_start_story (story_id : string) : DB StartStoryResponse :=
  rows <- query (fun s => filter (fun r => String.eqb (StartingStory.id r) story_id)
                                 (starting_stories s));;
  starting_story <- scalar_one_or_none rows;;
  match starting_story with
  | None => raise AttributeError           (* starting_story.story on None *)
  | Some r =>
      match StartingStory.story r, StartingStory.image r with
      | Some story, Some image =>
          ret {| ssr_image := image; ssr_story := story; ssr_id := StartingStory.id r |}
      | _, _ =>
          raise (HTTPException 404
                   (String.append "Story with ID "
                      (String.append story_id " not found")))
      end
  end.

Definition load_game (user_id : UUID) : DB (list SaveSummary) :=
  all_saves <- query (fun s => filter (fun g => Nat.eqb (GameSession.user_id g) user_id)
                                      (game_sessions s));;
  ret (map (fun save =>
              {| ss_id := GameSession.id save;
                 ss_protagonist_name := GameSession.protagonist_name save;
                 ss_inventory := GameSession.inventory save;
                 ss_session_name := GameSession.session_name save;
                 ss_stories := GameSession.stories save;
                 ss_image := GameSession.last_image save;
                 ss_last_played := GameSession.updated_at save |}) all_saves).

Definition or_empty (o : option string) : string :=
  match o with Some s => s | None => "" end.

Definition get_user_profile (user_id : UUID) : DB Profile :=
  rows <- query (fun s => filter (has_id user_id) (users s));;
  user <- scalar_one_or_none rows;;
  match user with
  | None => raise (HTTPException 404 "User not found")
  | Some user =>
      ret {| pr_email := User.email user;
             pr_first_name := or_empty (User.first_name user);
             pr_last_name := or_empty (User.last_name user);
             pr_registered_at := option_map strftime_Ymd (User.created_at user) |}
  end.

Definition session_is (sid : nat) (g : GameSession.t) : bool :=
  Nat.eqb (GameSession.id g) sid.

(** The [update(...).values(...)] of [save_game_route] on one row. *)
Definition resave (data : SaveGame) (updated_scenes : list Scene) (t : Timestamp)
    (g : GameSession.t) : GameSession.t :=
  GameSession.mk (GameSession.id g) (GameSession.user_id g)
                 (sg_image data)
                 (GameSession.protagonist_name g)
                 (gp_session_name (sg_game_session data))
                 (gp_inventory (sg_game_session data))
                 updated_scenes t.

(** Modelled from the spec: the id of a new GameSession is generated by the
    store; here it is the successor of the largest id in the table. *)
Definition next_session_id (tbl : list GameSession.t) : nat :=
  S (list_max (map GameSession.id tbl)).

Definition save_game_route (data : SaveGame) (user_id : UUID) : DB nat :=
  let gs := sg_game_session data in
  game_id <-
    match gp_id gs with
    | None =>
        t <- clock;;
        tbl <- query game_sessions;;
        let new_id := next_session_id tbl in
        execute (with_game_sessions
                   (fun l => l ++ [GameSession.mk new_id user_id (sg_image data)
                                     (gp_protagonist_name gs) (gp_session_name gs)
                                     (gp_inventory gs) (gp_scenes gs) t]));;;
        scalar_one [new_id]
    | Some sid =>
        rows <- query (fun s => map GameSession.stories
                                    (filter (session_is sid) (game_sessions s)));;
        old_scenes <- scalar_one_or_none rows;;
        updated_scenes <- match old_scenes with
                          | None => raise TypeError     (* None + list *)
                          | Some old => ret (old ++ gp_scenes gs)
                          end;;
        t <- clock;;
        execute (with_game_sessions
                   (map (fun g => if session_is sid g
                                  then resave data updated_scenes t g else g)));;;
        ret sid
    end;;
  commit;;;
  ret game_id.

End Operations.

(** ** Instances used by the examples *)

(** The strings [bcrypt.checkpw] takes for a hash: sixty characters that
    begin with a version tag.  On any other stored string, the placeholder
    of [_hash_password] among them, it raises [ValueError]. *)
Definition bcrypt_shaped (hashed : string) : bool :=
  Nat.eqb (String.length hashed) 60 &&
  existsb (fun tag => String.prefix tag hashed) ["$2a$"; "$2b$"; "$2x$"; "$2y$"].

(** A password with a bcrypt hash of it (cost 12), for the examples. *)
Definition known_hashes : list (string * string) :=
  [("pw1", "$2b$12$cVWp4XaNU8a4v1uMRum2SOmoCS84/fs6K86PSjKD16qPWTUI.tanS")].

(** The collaborators as the sources have them: the placeholder bodies of
    [generate_token] and [_hash_password], and the draw number as the UUID.
    bcrypt itself is not computed: [checkpw] raises on a string that is no
    bcrypt hash, and verifies the passwords of [known_hashes] against their
    hashes. *)
Definition source_stubs : Primitives :=
  {| generate_token := fun _ => generate_token_source;
     _hash_password := _hash_password_source;
     checkpw := fun pw hashed =>
                  if bcrypt_shaped hashed
                  then Some (existsb (fun kv => String.eqb (fst kv) pw
                                                && String.eqb (snd kv) hashed)
                                     known_hashes)
                  else None;
     uuid4 := fun n => n;
     strftime_Ymd := fun _ => "1970-01-01" |}.

Fixpoint tally (n : nat) : string :=
  match n with
  | 0 => ""
  | S n' => String "i"%char (tally n')
  end.

(** Collaborators whose tokens and hashes differ from draw to draw and from
    password to password. *)
Definition distinct_stubs : Primitives :=
  {| generate_token := fun n => String.append "token-" (tally n);
     _hash_password := fun pw => String.append "hash:" pw;
     checkpw := fun pw hashed => Some (String.eqb (String.append "hash:" pw) hashed);
     uuid4 := fun n => n;
     strftime_Ymd := fun _ => "1970-01-01" |}.

Definition one_token_per_email : Schema := {| email_tokens_email_unique := true |}.
Definition token_keyed_only : Schema := {| email_tokens_email_unique := false |}.

(** ** Vocabulary of the statements *)

(** The row of session [sid], as the lookup of [save_game_route] sees it. *)
Definition session_rows (sid : nat) (w : World) : list GameSession.t :=
filter (session_is sid) (game_sessions (working w)).

Definition other_sessions (sid : nat) (w : World) : list GameSession.t :=
filter (fun g => negb (session_is sid g)) (game_sessions (working w)).

(** What one save with an existing id leaves. *)
Definition saved_world (data : SaveGame) (sid : nat) (old : list Scene) (w : World)
    : World :=
do_commit
  (on_working
     (with_game_sessions
        (map (fun g => if session_is sid g
                       then resave data (old ++ gp_scenes (sg_game_session data))
                                   (now w) g
                       else g))) w).

(** The rows the lookup of [get_start_story] finds. *)
Definition story_rows (story_id : string) (w : World) : list StartingStory.t :=
filter (fun r => String.eqb (StartingStory.id r) story_id) (starting_stories (working w)).

Definition story_not_found (story_id : string) : exn :=
HTTPException 404 (String.append "Story with ID " (String.append story_id " not found")).

(** The rows a lookup by primary key, by email, or by owner finds. *)
Definition user_rows (user_id : UUID) (s : Store) : list User.t :=
filter (has_id user_id) (users s).

Definition users_with_email (email : string) (s : Store) : list User.t :=
filter (has_email email) (users s).

Definition tokens_of (user_id : UUID) (s : Store) : list AccessToken.t :=
filter (fun t => Nat.eqb (AccessToken.user_id t) user_id) (tokens s).

Definition tokens_of_others (user_id : UUID) (s : Store) : list AccessToken.t :=
filter (fun t => negb (Nat.eqb (AccessToken.user_id t) user_id)) (tokens s).

Definition email_tokens_for (email : string) (s : Store) : list EmailToken.t :=
filter (for_email email) (email_tokens s).

Definition user_not_found : exn := HTTPException 404 "User not found".

(** A field of a sparse update, applied to the stored value. *)
Definition overwrite {A} (new : option A) (old : A) : A :=
match new with Some v => v | None => old end.

Definition email_token_rows (token : string) (s : Store) : list EmailToken.t :=
filter (has_token token) (email_tokens s).

Definition token_not_found : exn := HTTPException 404 "Token not found".
Definition token_expired : exn := HTTPException 401 "Token expired".

(** The age of an EmailToken, in minutes. *)
Definition age (w : World) (t : EmailToken.t) : nat := now w - EmailToken.created_at t.

(** The world after [_delete_email_tokens email]. *)
Definition email_tokens_purged (email : string) (w : World) : World :=
do_commit (on_working (with_email_tokens (filter (fun t => negb (for_email email t)))) w).

Definition invalid_email_format : exn := HTTPException 400 "Invalid email format".
Definition user_already_exists : exn := HTTPException 400 "User with this email already exists".

(** The row [_post_email_token] inserts from world [w]. *)
Definition new_email_token {P : Primitives} (user : UserCreate) (w : World) : EmailToken.t :=
EmailToken.mk (uc_email user) (_hash_password (uc_password user))
              (generate_token (entropy w)) (now w).

(** The store rejects that row. *)
Definition insert_collides {P : Primitives} {Sch : Schema} (user : UserCreate) (w : World)
    : bool :=
email_token_insert_violates (new_email_token user w) (email_tokens (working w)).

(** The world after a successful [_post_email_token]. *)
Definition posted_world {P : Primitives} (user : UserCreate) (w : World) : World :=
do_commit (on_working (with_email_tokens (fun l => l ++ [new_email_token user w]))
                      (do_draw w)).

(** The world in which [create_email_token] makes its second attempt: the
    first insert was rejected, the transaction rolled back, the EmailTokens of
    the email deleted and the deletion committed. *)
Definition retry_world (user : UserCreate) (w : World) : World :=
email_tokens_purged (uc_email user) (do_rollback (do_draw w)).

(** *** Access tokens *)

Definition invalid_token : exn := HTTPException 401 "Invalid token".

(** The world [logout_user] leaves. *)
Definition logged_out (user_id : UUID) (w : World) : World :=
do_commit
  (on_working
     (with_tokens (filter (fun t => negb (Nat.eqb (AccessToken.user_id t) user_id)))) w).

(** The row [_create_access_token] inserts from world [w]. *)
Definition new_access_token {P : Primitives} (user_id : UUID) (w : World) : AccessToken.t :=
AccessToken.mk (generate_token (entropy w)) "some unknown timestamp" user_id.

(** The store rejects that row once the user's old tokens are gone. *)
Definition issue_collides {P : Primitives} (user_id : UUID) (w : World) : bool :=
token_insert_violates (new_access_token user_id w)
                      (tokens (working (logged_out user_id w))).

(** The world a successful [_create_access_token] leaves. *)
Definition issued_world {P : Primitives} (user_id : UUID) (w : World) : World :=
do_commit
  (on_working (with_tokens (fun l => l ++ [new_access_token user_id w]))
              (do_draw (logged_out user_id w))).

(** At most one AccessToken per user. *)
Definition single_token (s : Store) : Prop :=
forall user_id, length (tokens_of user_id s) <= 1.

Definition single_active_session (w : World) : Prop :=
single_token (working w) /\ single_token (committed w).

(** The states committed between [w] and [w'], newest first. *)
Definition commits_between (w w' : World) : list Store :=
firstn (length (journal w') - length (journal w)) (journal w').

(** Issuance as one atomic unit: whenever the new token is inserted, no state
    committed on the way shows the user without a token. *)
Definition issuance_atomic {P : Primitives} (user_id : UUID) (w : World) : Prop :=
forall token w',
  _create_access_token user_id w = (Ok token, w') ->
  forall s, In s (commits_between w w') -> tokens_of user_id s <> [].

(** The public operations, as requests. *)
Inductive Operation : Type :=
| CreateUser (token : string)
| LoginUser (user : UserLogin)
| LogoutUser (user_id : UUID)
| UpdateUser (user_id : UUID) (user : UserUpdate)
| ActivateUser (user_id : UUID)
| DeactivateUser (user_id : UUID)
| HardDeleteUser (user_id : UUID)
| ValidateToken (token : string)
| CreateEmailToken (user : UserCreate)
| UpdateEmailToken (email : string)
| ResetPassword (token password : string)
| GetStartStory (story_id : string)
| LoadGame (user_id : UUID)
| GetUserProfile (user_id : UUID)
| SaveGameRoute (data : SaveGame) (user_id : UUID).

Definition ignore {A} (m : DB A) : DB unit := m;;; ret tt.

Definition run {P : Primitives} {Sch : Schema} (op : Operation) : DB unit :=
match op with
| CreateUser token => ignore (create_user token)
| LoginUser user => ignore (login_user user)
| LogoutUser user_id => logout_user user_id
| UpdateUser user_id user => ignore (update_user user_id user)
| ActivateUser user_id => activate_user user_id
| DeactivateUser user_id => deactivate_user user_id
| HardDeleteUser user_id => ignore (hard_delete_user user_id)
| ValidateToken token => ignore (validate_token token)
| CreateEmailToken user => ignore (create_email_token user)
| UpdateEmailToken email => ignore (update_email_token email)
| ResetPassword token password => ignore (reset_password token password)
| GetStartStory story_id => ignore (get_start_story story_id)
| LoadGame user_id => ignore (load_game user_id)
| GetUserProfile user_id => ignore (get_user_profile user_id)
| SaveGameRoute data user_id => ignore (save_game_route data user_id)
end.

(** [m] keeps [I], whether it returns or raises. *)
Definition preserves {A} (I : World -> Prop) (m : DB A) : Prop :=
forall w, I w -> I (snd (m w)).


(** The profile update that carries no field. *)
Definition no_field : UserUpdate :=
{| uu_email := None; uu_password := None; uu_first_name := None; uu_last_name := None |}.

(** The error of a statement the database does not accept. *)
Definition statement_rejected : exn := DBAPIError.

(** ** Example data *)

(** Two saves into session 7 of a store that holds sessions 3 and 7. *)
Definition save_demo_world : World :=
  fresh_world
    (with_game_sessions
       (fun _ => [GameSession.mk 3 1 "img3" "Ann" "first" ["rope"] ["a"; "b"] 0;
                  GameSession.mk 7 1 "img7" "Bob" "second" [] ["x"] 0])
       empty_store) 5.

Definition save_demo_data (scenes : list Scene) : SaveGame :=
  {| sg_game_session :=
       {| gp_id := Some 7; gp_protagonist_name := "ignored"; gp_session_name := "renamed";
          gp_inventory := ["lamp"]; gp_scenes := scenes |};
     sg_image := "img-new" |}.


Definition story_demo_world : World :=
fresh_world
  {| users := []; tokens := []; email_tokens := [];
     starting_stories := [StartingStory.mk "cave" (Some "You wake up.") (Some "cave.png");
                          StartingStory.mk "ship" (Some "The deck rolls.") None];
     game_sessions := [] |} 0.

Definition alice : User.t :=
User.mk 1 "alice@example.com" "Super secret" true None None (Some 0).

Definition alice_world : World :=
fresh_world
  {| users := [alice];
     tokens := [AccessToken.mk "Wouldn't you like to know!" "some unknown timestamp" 1];
     email_tokens := [EmailToken.mk "alice@example.com" "Super secret" "link-1" 0];
     starting_stories := []; game_sessions := [] |} 10.

(** A token whose user row is gone. *)
Definition orphan_world : World :=
fresh_world
  {| users := [alice];
     tokens := [AccessToken.mk "stale" "some unknown timestamp" 9;
                AccessToken.mk "live" "some unknown timestamp" 1];
     email_tokens := []; starting_stories := []; game_sessions := [] |} 10.

Definition rename_alice : UserUpdate :=
{| uu_email := None; uu_password := Some "pw2";
   uu_first_name := Some "Alice"; uu_last_name := None |}.

(** A pending registration made at minute 100, confirmed at once. *)
Definition pending_world : World :=
fresh_world
  {| users := []; tokens := [];
     email_tokens := [EmailToken.mk "bob@example.com" "Super secret" "link-bob" 100];
     starting_stories := []; game_sessions := [] |} 100.

Definition bob : UserCreate := {| uc_email := "bob@example.com"; uc_password := "pw1" |}.

Definition alice_login : UserLogin :=
{| ul_email := "alice@example.com"; ul_password := "pw1" |}.

(** Alice, whose stored password is a bcrypt hash of ["pw1"]. *)
Definition alice_bcrypt_world : World :=
fresh_world
  {| users := [User.mk 1 "alice@example.com"
                       "$2b$12$cVWp4XaNU8a4v1uMRum2SOmoCS84/fs6K86PSjKD16qPWTUI.tanS"
                       true None None (Some 0)];
     tokens := []; email_tokens := []; starting_stories := []; game_sessions := [] |} 10.

(** Alice, registered with the hash [distinct_stubs] gives her password. *)
Definition alice_hashed_world : World :=
fresh_world
  {| users := [User.mk 1 "alice@example.com" "hash:pw1" true None None (Some 0)];
     tokens := []; email_tokens := []; starting_stories := []; game_sessions := [] |} 10.

(** ** Vocabulary of the further properties *)

Definition invalid_credentials : exn := HTTPException 401 "Invalid credentials".

(** The world after [update(users).where(id == user_id).values(is_active=b)]
    and the commit that follows it. *)
Definition flagged_world (b : bool) (user_id : UUID) (w : World) : World :=
do_commit
  (on_working
     (with_users (map (fun r => if has_id user_id r then set_is_active b r else r))) w).

(** Alice, deactivated, with the hash [distinct_stubs] gives her password. *)
Definition dormant_alice : User.t :=
User.mk 1 "alice@example.com" "hash:pw1" false None None (Some 0).

Definition dormant_world : World :=
fresh_world
  {| users := [dormant_alice]; tokens := []; email_tokens := [];
     starting_stories := []; game_sessions := [] |} 10.

(** *** Game sessions *)

(** The row the insert branch of [save_game_route] adds in world [w]. *)
Definition new_session_row (data : SaveGame) (user_id : UUID) (w : World) : GameSession.t :=
GameSession.mk (next_session_id (game_sessions (working w))) user_id (sg_image data)
               (gp_protagonist_name (sg_game_session data))
               (gp_session_name (sg_game_session data))
               (gp_inventory (sg_game_session data))
               (gp_scenes (sg_game_session data)) (now w).

(** The world that branch leaves. *)
Definition created_world (data : SaveGame) (user_id : UUID) (w : World) : World :=
do_commit
  (on_working (with_game_sessions (fun l => l ++ [new_session_row data user_id w])) w).

(** The summary [load_game] makes of a row. *)
Definition summary (save : GameSession.t) : SaveSummary :=
{| ss_id := GameSession.id save;
   ss_protagonist_name := GameSession.protagonist_name save;
   ss_inventory := GameSession.inventory save;
   ss_session_name := GameSession.session_name save;
   ss_stories := GameSession.stories save;
   ss_image := GameSession.last_image save;
   ss_last_played := GameSession.updated_at save |}.

Definition owned_by (user_id : UUID) (g : GameSession.t) : bool :=
Nat.eqb (GameSession.user_id g) user_id.

(** [new] is [old] with scenes added at the end: same id, owner and
    protagonist, the old scenes a prefix of the new ones. *)
Definition extends_scenes (old new : GameSession.t) : Prop :=
GameSession.id new = GameSession.id old /\
GameSession.user_id new = GameSession.user_id old /\
GameSession.protagonist_name new = GameSession.protagonist_name old /\
exists added, GameSession.stories new = GameSession.stories old ++ added.

(** The table [after] holds every row of [before], in the same order and
    each possibly extended, followed by new rows. *)
Definition sessions_grow (before after : list GameSession.t) : Prop :=
exists kept added, after = kept ++ added /\ Forall2 extends_scenes before kept.

(** A sequence of requests, each run whatever the outcome of the ones
    before. *)
Definition run_all {P : Primitives} {Sch : Schema} (ops : list Operation) (w : World)
    : World :=
fold_left (fun w op => snd (run op w)) ops w.

(** [Q] holds of the working and of the committed store. *)
Definition both (Q : Store -> Prop) (w : World) : Prop :=
Q (working w) /\ Q (committed w).

(** A first save of a new game, and a later save into session [sid]. *)
Definition new_game_data : SaveGame :=
{| sg_game_session :=
     {| gp_id := None; gp_protagonist_name := "Cy"; gp_session_name := "third";
        gp_inventory := ["map"]; gp_scenes := ["s1"; "s2"] |};
   sg_image := "img-cy" |}.

Definition append_data (sid : nat) (scenes : list Scene) : SaveGame :=
{| sg_game_session :=
     {| gp_id := Some sid; gp_protagonist_name := "Cy"; gp_session_name := "third";
        gp_inventory := ["map"; "key"]; gp_scenes := scenes |};
   sg_image := "img-cy-2" |}.

(** *** The language of a regular expression *)

Notation "s +++ t" := (String.append s t) (at level 60, right associativity).

Inductive lang : Re.re -> string -> Prop :=
| lang_eps : lang Re.Eps ""
| lang_cls (p : ascii -> bool) (c : ascii) : p c = true -> lang (Re.Cls p) (String c "")
| lang_cat (a b : Re.re) (s t : string) :
    lang a s -> lang b t -> lang (Re.Cat a b) (s +++ t)
| lang_alt_l (a b : Re.re) (s : string) : lang a s -> lang (Re.Alt a b) s
| lang_alt_r (a b : Re.re) (s : string) : lang b s -> lang (Re.Alt a b) s
| lang_star_nil (a : Re.re) : lang (Re.Star a) ""
| lang_star_cons (a : Re.re) (s t : string) :
    lang a s -> lang (Re.Star a) t -> lang (Re.Star a) (s +++ t).

Fixpoint all_chars (p : ascii -> bool) (s : string) : bool :=
match s with
| EmptyString => true
| String c s' => p c && all_chars p s'
end.

(** The addresses [email_pattern] describes: a local part, an at sign, a
    domain, a dot, a top-level domain of at least two letters, and possibly
    one newline at the very end. *)
Definition email_shape (s : string) : Prop :=
exists local dom tld nl,
  s = local +++ "@" +++ dom +++ "." +++ tld +++ nl /\
  local <> "" /\ all_chars local_part_char local = true /\
  dom <> "" /\ all_chars domain_char dom = true /\
  2 <= String.length tld /\ all_chars Re.alpha tld = true /\
  (nl = "" \/ nl = String "010"%char "").

Fixpoint count_char (c : ascii) (s : string) : nat :=
match s with
| EmptyString => 0
| String c' s' => (if Ascii.eqb c' c then 1 else 0) + count_char c s'
end.

(** *** Email tokens, further *)

Definition email_not_registered : exn := HTTPException 404 "Email not registered".

(** The store rejects the token [update_email_token] draws in world [w]. *)
Definition rotation_collides {P : Primitives} (email : string) (w : World) : bool :=
update_violates EmailToken.token (for_email email)
                (retoken (generate_token (entropy w)) (now w)) (email_tokens (working w)).

(** The world a successful [update_email_token] leaves. *)
Definition rotated_world {P : Primitives} (email : string) (w : World) : World :=
do_commit
  (on_working
     (with_email_tokens
        (map (fun r => if for_email email r
                       then retoken (generate_token (entropy w)) (now w) r else r)))
     (do_draw w)).

(** A registered user whose confirmation link was never used up. *)
Definition reset_world : World :=
fresh_world
  {| users := [User.mk 1 "alice@example.com" "hash:pw1" true None None (Some 0)];
     tokens := [];
     email_tokens := [EmailToken.mk "alice@example.com" "hash:pw1" "link-1" 0;
                      EmailToken.mk "bob@example.com" "hash:pw2" "link-2" 3];
     starting_stories := []; game_sessions := [] |} 50.

(** *** Users, further *)

(** The world a successful [hard_delete_user] leaves. *)
Definition deleted_world (user_id : UUID) (email : string) (w : World) : World :=
email_tokens_purged email
  (do_commit
     (on_working (with_users (filter (fun u => negb (has_id user_id u))))
                 (logged_out user_id w))).

(** The profile [get_user_profile] makes of a row. *)
Definition profile_of {P : Primitives} (user : User.t) : Profile :=
{| pr_email := User.email user;
   pr_first_name := or_empty (User.first_name user);
   pr_last_name := or_empty (User.last_name user);
   pr_registered_at := option_map strftime_Ymd (User.created_at user) |}.

(** The world after a successful [update_user]. *)
Definition updated_world {P : Primitives} (user_id : UUID) (user : UserUpdate) (w : World)
    : World :=
do_commit
  (on_working
     (with_users (map (fun r => if has_id user_id r
                                then values (new_user_data user) r else r))) w).

(** *** Unique token strings *)

(** No two AccessTokens carry the same string. *)
Definition unique_tokens (s : Store) : Prop := NoDup (map AccessToken.token (tokens s)).

(** *** The insert loop of [create_user] *)

Definition internal_error : exn :=
HTTPException 500 "User creation failed when posting to database.".

(** The row an attempt of the loop builds in world [w]. *)
Definition candidate_user {P : Primitives} (user_data : EmailToken.t) (w : World) : User.t :=
User.mk (uuid4 (entropy w)) (EmailToken.email user_data) (EmailToken.password user_data)
        true None None (Some (now w)).

(** The store rejects that row. *)
Definition attempt_rejected {P : Primitives} (user_data : EmailToken.t) (w : World) : bool :=
user_insert_violates (candidate_user user_data w) (users (working w)).

(** The world a rejected attempt leaves: one UUID drawn, the transaction
    rolled back. *)
Definition after_rejection (w : World) : World := do_rollback (do_draw w).

(** The world the attempt after a rejected one leaves: a second UUID
    drawn, the commit refused. *)
Definition refused_world (w : World) : World := do_draw (after_rejection w).

(** The world an accepted attempt leaves. *)
Definition inserted_world {P : Primitives} (user_data : EmailToken.t) (w : World) : World :=
do_commit (on_working (with_users (fun l => l ++ [candidate_user user_data w])) (do_draw w)).

(** [reset_world] after one attempt to confirm alice's link. *)
Definition locked_world : World :=
snd (@reset_password source_stubs "link-1" "new-pw" reset_world).


(** Alice and Dan registered; Dan is logged in. *)
Definition two_users_world : World :=
fresh_world
  {| users := [User.mk 1 "alice@example.com" "hash:pw1" true None None (Some 0);
               User.mk 2 "dan@example.com" "hash:pw9" true None None (Some 0)];
     tokens := [AccessToken.mk "dan-token" "some unknown timestamp" 2];
     email_tokens := []; starting_stories := []; game_sessions := [] |} 10.
(** ** Lists as tables *)

Section Tables.
Context {A : Type}.
Implicit Types (p : A -> bool) (f : A -> A) (l : list A).

Lemma filter_update_same p f l :
  (forall r, p (f r) = p r) ->
  filter p (map (fun r => if p r then f r else r) l) = map f (filter p l).
Proof.
  intros Hp. induction l as [|r l IH]; simpl; [reflexivity|].
  destruct (p r) eqn:E.
  - rewrite Hp, E. simpl. now rewrite IH.
  - rewrite E. exact IH.
Qed.

Lemma filter_update_other p (q : A -> bool) f l :
  (forall r, p r = true -> q (f r) = false /\ q r = false) ->
  filter q (map (fun r => if p r then f r else r) l) = filter q l.
Proof.
  intros Hq. induction l as [|r l IH]; simpl; [reflexivity|].
  destruct (p r) eqn:E.
  - destruct (Hq r E) as [-> ->]. exact IH.
  - destruct (q r); now rewrite IH.
Qed.

Lemma filter_none p l :
  filter p l = [] -> forall r, In r l -> p r = false.
Proof.
  intros H r Hin. destruct (p r) eqn:E; [|reflexivity].
  assert (In r (filter p l)) by (apply filter_In; auto).
  rewrite H in *. contradiction.
Qed.

Lemma update_none p f l :
  filter p l = [] -> map (fun r => if p r then f r else r) l = l.
Proof.
  intros H. rewrite <- (map_id l) at 2. apply map_ext_in.
  intros r Hin. now rewrite (filter_none p l H r Hin).
Qed.

Lemma filter_filter_neg p l : filter p (filter (fun r => negb (p r)) l) = [].
Proof.
  induction l as [|r l IH]; simpl; [reflexivity|].
  destruct (p r) eqn:E; simpl; [|rewrite E]; exact IH.
Qed.

Lemma filter_neg_none p l :
  filter p l = [] -> filter (fun r => negb (p r)) l = l.
Proof.
  intros H. induction l as [|r l IH]; simpl in *; [reflexivity|].
  destruct (p r) eqn:E; simpl; [discriminate|]. now rewrite IH.
Qed.

Lemma filter_after_delete p (q : A -> bool) l r :
  filter p l = [r] -> q r = true ->
  filter p (filter (fun x => negb (q x)) l) = [].
Proof.
  intros Hp Hq.
  destruct (filter p (filter (fun x => negb (q x)) l)) as [|x xs] eqn:E; [reflexivity|].
  assert (Hin : In x (filter p (filter (fun x => negb (q x)) l))) by (rewrite E; now left).
  apply filter_In in Hin as [Hin Hpx]. apply filter_In in Hin as [Hin Hqx].
  assert (Hx : In x (filter p l)) by (apply filter_In; auto).
  rewrite Hp in Hx. destruct Hx as [<- | []]. rewrite Hq in Hqx. discriminate.
Qed.

Lemma existsb_false_filter (f g : A -> bool) l :
  existsb f l = false -> (forall r, g r = true -> f r = true) -> filter g l = [].
Proof.
  intros Hf Hg. induction l as [|r l IH]; simpl in *; [reflexivity|].
  apply orb_false_iff in Hf as [Hr Hl].
  destruct (g r) eqn:E; [rewrite (Hg r E) in Hr; discriminate | now apply IH].
Qed.

Lemma filter_map_commute p (h : A -> A) l :
  (forall r, p (h r) = p r) -> filter p (map h l) = map h (filter p l).
Proof.
  intros Hp. induction l as [|r l IH]; simpl; [reflexivity|].
  rewrite Hp. destruct (p r); simpl; now rewrite IH.
Qed.
End Tables.

(** ** Saving a game session *)

Section Save.
Context {P : Primitives} {Sch : Schema}.

Lemma save_existing_step data user_id sid g w :
  gp_id (sg_game_session data) = Some sid ->
  session_rows sid w = [g] ->
  save_game_route data user_id w
    = (Ok sid, saved_world data sid (GameSession.stories g) w).
Proof.
  intros Hid Hrow. unfold save_game_route, session_rows in *.
  rewrite Hid. unfold bind, query, gets. simpl.
  rewrite Hrow. reflexivity.
Qed.

Lemma saved_world_rows data sid g w :
  session_rows sid w = [g] ->
  session_rows sid (saved_world data sid (GameSession.stories g) w)
    = [resave data (GameSession.stories g ++ gp_scenes (sg_game_session data))
              (now w) g].
Proof.
  intros Hrow. unfold session_rows, saved_world in *. simpl.
  rewrite filter_update_same by reflexivity.
  now rewrite Hrow.
Qed.

Lemma saved_world_others data sid old w :
  other_sessions sid (saved_world data sid old w) = other_sessions sid w.
Proof.
  unfold other_sessions, saved_world. simpl.
  apply filter_update_other. intros r Hr. simpl.
  unfold session_is in *. simpl. now rewrite Hr.
Qed.

Lemma saved_world_ids data sid old w :
  map GameSession.id (game_sessions (working (saved_world data sid old w)))
    = map GameSession.id (game_sessions (working w)).
Proof.
  unfold saved_world. simpl. rewrite map_map. apply map_ext.
  intros g. now destruct (session_is sid g).
Qed.

(** C1. A save that carries the id of a stored session appends its scenes to
    the stored sequence (stored scenes first, nothing reordered, dropped or
    merged), overwrites the row's inventory, session name and last image in
    place, leaves every other column, row and the order of the rows as they
    were, and returns the id it was given.  A second save with the same id
    again succeeds, and the sequence it leaves is the sequence it found
    followed by its own scenes: the initial sequence, the scenes of the first
    save, the scenes of the second. *)
Theorem save_with_existing_id_appends :
  forall (data1 data2 : SaveGame) (user1 user2 : UUID) (sid : nat)
         (g : GameSession.t) (w : World),
    gp_id (sg_game_session data1) = Some sid ->
    gp_id (sg_game_session data2) = Some sid ->
    session_rows sid w = [g] ->
    exists (w1 w2 : World) (g1 g2 : GameSession.t),
      save_game_route data1 user1 w = (Ok sid, w1) /\
      session_rows sid w1 = [g1] /\
      GameSession.stories g1
        = GameSession.stories g ++ gp_scenes (sg_game_session data1) /\
      GameSession.inventory g1 = gp_inventory (sg_game_session data1) /\
      GameSession.session_name g1 = gp_session_name (sg_game_session data1) /\
      GameSession.last_image g1 = sg_image data1 /\
      GameSession.id g1 = GameSession.id g /\
      GameSession.user_id g1 = GameSession.user_id g /\
      GameSession.protagonist_name g1 = GameSession.protagonist_name g /\
      other_sessions sid w1 = other_sessions sid w /\
      map GameSession.id (game_sessions (working w1))
        = map GameSession.id (game_sessions (working w)) /\
      committed w1 = working w1 /\
      save_game_route data2 user2 w1 = (Ok sid, w2) /\
      session_rows sid w2 = [g2] /\
      GameSession.stories g2
        = GameSession.stories g1 ++ gp_scenes (sg_game_session data2) /\
      GameSession.stories g2
        = GameSession.stories g ++ gp_scenes (sg_game_session data1)
                                ++ gp_scenes (sg_game_session data2).
Proof.
  intros data1 data2 user1 user2 sid g w Hid1 Hid2 Hrow.
  pose proof (saved_world_rows data1 sid g w Hrow) as Hrow1.
  set (w1 := saved_world data1 sid (GameSession.stories g) w) in *.
  set (g1 := resave data1 (GameSession.stories g ++ gp_scenes (sg_game_session data1))
                    (now w) g) in *.
  pose proof (saved_world_rows data2 sid g1 w1 Hrow1) as Hrow2.
  exists w1, (saved_world data2 sid (GameSession.stories g1) w1), g1.
  eexists. repeat split.
  - now apply save_existing_step.
  - exact Hrow1.
  - apply saved_world_others.
  - apply saved_world_ids.
  - now apply save_existing_step.
  - exact Hrow2.
  - reflexivity.
  - simpl. now rewrite <- app_assoc.
Qed.

Lemma save_with_existing_id_appends_witness :
  exists (w1 w2 : World) (g1 g2 : GameSession.t),
    save_game_route (save_demo_data ["x"; "y"]) 1 save_demo_world = (Ok 7, w1) /\
    session_rows 7 w1 = [g1] /\
    GameSession.stories g1 = ["x"; "x"; "y"] /\
    save_game_route (save_demo_data []) 2 w1 = (Ok 7, w2) /\
    session_rows 7 w2 = [g2] /\
    GameSession.stories g2 = ["x"; "x"; "y"].
Proof.
  destruct (save_with_existing_id_appends
              (save_demo_data ["x"; "y"]) (save_demo_data []) 1 2 7
              (GameSession.mk 7 1 "img7" "Bob" "second" [] ["x"] 0)
              save_demo_world eq_refl eq_refl eq_refl)
    as (w1 & w2 & g1 & g2 & H1 & H2 & H3 & _ & _ & _ & _ & _ & _ & _ & _ & _
        & H4 & H5 & _ & H6).
  exists w1, w2, g1, g2. repeat split; assumption.
Defined.

(** C9. With a session id in the payload, [save_game_route] raises the
    untyped [TypeError] (the lookup gave None, and None is concatenated with
    the new scenes) exactly when no row has that id, and then nothing is
    written or committed; no input makes it raise an HTTP exception, so an
    unknown id has no NotFound outcome; when the row exists the save returns
    the id, so the error branch is not reached. *)
Theorem save_unknown_id_raises_TypeError :
  forall (data : SaveGame) (user_id : UUID) (sid : nat) (w : World),
    gp_id (sg_game_session data) = Some sid ->
    (fst (save_game_route data user_id w) = Raise TypeError <-> session_rows sid w = []) /\
    (session_rows sid w = [] -> save_game_route data user_id w = (Raise TypeError, w)) /\
    (forall code detail,
        fst (save_game_route data user_id w) <> Raise (HTTPException code detail)) /\
    (forall g, session_rows sid w = [g] ->
               fst (save_game_route data user_id w) = Ok sid).
Proof.
  intros data user_id sid w Hid.
  assert (Hcases :
    (session_rows sid w = [] /\ save_game_route data user_id w = (Raise TypeError, w)) \/
    (exists g, session_rows sid w = [g] /\ fst (save_game_route data user_id w) = Ok sid) \/
    (exists g g' l, session_rows sid w = g :: g' :: l /\
       save_game_route data user_id w = (Raise MultipleResultsFound, w))).
  { destruct (session_rows sid w) as [|g [|g' l]] eqn:E.
    - left. split; [reflexivity|].
      unfold save_game_route, session_rows in *. rewrite Hid.
      unfold bind, query, gets. simpl. now rewrite E.
    - right; left. exists g. split; [reflexivity|].
      now rewrite (save_existing_step data user_id sid g w Hid E).
    - right; right. exists g, g', l. split; [reflexivity|].
      unfold save_game_route, session_rows in *. rewrite Hid.
      unfold bind, query, gets. simpl. now rewrite E. }
  destruct Hcases as [[E R] | [(g & E & R) | (g & g' & l & E & R)]];
    rewrite ?E, ?R; simpl; repeat split; intros; try congruence.
Qed.

Lemma save_unknown_id_raises_TypeError_witness :
  save_game_route (save_demo_data ["x"]) 1 (fresh_world empty_store 0)
    = (Raise TypeError, fresh_world empty_store 0).
Proof.
  apply (save_unknown_id_raises_TypeError (save_demo_data ["x"]) 1 7
           (fresh_world empty_store 0) eq_refl).
  reflexivity.
Defined.
End Save.

(** ** The starting story *)

(** C10. [get_start_story] reads the text and the image off the lookup's
    result before looking at the result itself: when no row has the id it
    raises the untyped [AttributeError], not NotFound.  When the row exists it
    raises NotFound exactly when the text or the image is absent, and
    otherwise returns the image, the text and the id.  In every case the
    store is left as it was. *)
Theorem get_start_story_total_on_existing_rows :
  forall (story_id : string) (w : World),
    snd (get_start_story story_id w) = w /\
    (story_rows story_id w = [] ->
       fst (get_start_story story_id w) = Raise AttributeError) /\
    (forall r, story_rows story_id w = [r] ->
       (fst (get_start_story story_id w) = Raise (story_not_found story_id)
          <-> (StartingStory.story r = None \/ StartingStory.image r = None)) /\
       (forall story image,
           StartingStory.story r = Some story -> StartingStory.image r = Some image ->
           fst (get_start_story story_id w)
             = Ok {| ssr_image := image; ssr_story := story;
                     ssr_id := StartingStory.id r |})).
Proof.
  intros story_id w. unfold get_start_story, story_rows, story_not_found, bind, query, gets.
  simpl.
  destruct (filter _ (starting_stories (working w))) as [|r [|r' l]]; simpl.
  - repeat split; intros; discriminate.
  - split; [now destruct (StartingStory.story r), (StartingStory.image r)|].
    split; [discriminate|].
    intros r0 Hr0. injection Hr0 as <-.
    destruct (StartingStory.story r) as [s|], (StartingStory.image r) as [i|]; simpl;
      (split; [split; intros H; [try discriminate; auto | destruct H; congruence]
              | intros; congruence]).
  - repeat split; intros; discriminate.
Qed.

Lemma get_start_story_total_on_existing_rows_witness :
  fst (get_start_story "cave" story_demo_world)
    = Ok {| ssr_image := "cave.png"; ssr_story := "You wake up."; ssr_id := "cave" |} /\
  fst (get_start_story "ship" story_demo_world) = Raise (story_not_found "ship") /\
  fst (get_start_story "moon" story_demo_world) = Raise AttributeError.
Proof.
  pose proof (get_start_story_total_on_existing_rows "cave" story_demo_world) as (_ & _ & Hc).
  pose proof (get_start_story_total_on_existing_rows "ship" story_demo_world) as (_ & _ & Hs).
  pose proof (get_start_story_total_on_existing_rows "moon" story_demo_world) as (_ & Hm & _).
  split; [|split].
  - exact (proj2 (Hc _ eq_refl) _ _ eq_refl eq_refl).
  - exact (proj2 (proj1 (Hs _ eq_refl)) (or_intror eq_refl)).
  - exact (Hm eq_refl).
Defined.

(** ** Profile update and hard delete *)

Section Users.
Context {P : Primitives} {Sch : Schema}.

Lemma values_fields (user : UserUpdate) (u : User.t) :
  let u' := values (new_user_data user) u in
  User.id u' = User.id u /\
  User.email u' = overwrite (uu_email user) (User.email u) /\
  User.password u'
    = overwrite (option_map _hash_password (uu_password user)) (User.password u) /\
  User.first_name u' = overwrite (option_map Some (uu_first_name user)) (User.first_name u) /\
  User.last_name u' = overwrite (option_map Some (uu_last_name user)) (User.last_name u) /\
  User.is_active u' = User.is_active u /\
  User.created_at u' = User.created_at u.
Proof.
  destruct user as [[e|] [p|] [f|] [l|]]; cbn; repeat split.
Qed.

Lemma values_keeps_id (nud : list (string * string)) (u : User.t) :
  User.id (values nud u) = User.id u.
Proof.
  unfold values. revert u. induction nud as [|[k v] nud IH]; intros u; simpl; [reflexivity|].
  rewrite IH.
  destruct (String.eqb k "email"); [reflexivity|].
  destruct (String.eqb k "password"); [reflexivity|].
  destruct (String.eqb k "first_name"); [reflexivity|].
  destruct (String.eqb k "last_name"); reflexivity.
Qed.

Lemma new_user_data_empty (user : UserUpdate) :
  new_user_data user = [] <-> user = no_field.
Proof.
  split; [|now intros ->].
  destruct user as [[e|] [p|] [f|] [l|]]; cbn; intros H; try discriminate; reflexivity.
Qed.

Lemma update_users_values_fields (user_id : UUID) (user : UserUpdate) :
  user <> no_field ->
  update_users_values user_id (new_user_data user)
    = update_users_returning (has_id user_id) (values (new_user_data user)).
Proof.
  intros Hfield. unfold update_users_values.
  destruct (new_user_data user) eqn:Hnud; [|reflexivity].
  now apply new_user_data_empty in Hnud.
Qed.

(** C8. A profile update that carries at least one field: for an id that
    has no User row it deletes every AccessToken of that id (in the working
    and in the committed store, the tokens of other users and the users
    themselves untouched) and then raises NotFound; when the row exists and
    the store accepts the update, the row returned and stored differs from
    the old one only in the fields the sparse update carries, the password
    stored being the hash of the one given, and no token is touched.  The
    update that carries no field is rejected by the database when the
    statement is executed, whether the row exists or not: nothing is
    committed, no token is purged and NotFound is not raised. *)
Theorem update_user_purges_or_applies :
  forall (user_id : UUID) (user : UserUpdate) (w : World),
    (user <> no_field ->
     user_rows user_id (working w) = [] ->
     exists w',
       update_user user_id user w = (Raise user_not_found, w') /\
       tokens_of user_id (working w') = [] /\
       tokens_of user_id (committed w') = [] /\
       tokens_of_others user_id (working w') = tokens_of_others user_id (working w) /\
       users (working w') = users (working w) /\
       committed w' = working w') /\
    (forall u,
       user <> no_field ->
       user_rows user_id (working w) = [u] ->
       update_violates User.email (has_id user_id) (values (new_user_data user))
                       (users (working w)) = false ->
       exists u' w',
         update_user user_id user w = (Ok u', w') /\
         user_rows user_id (working w') = [u'] /\
         User.id u' = User.id u /\
         User.email u' = overwrite (uu_email user) (User.email u) /\
         User.password u'
           = overwrite (option_map _hash_password (uu_password user)) (User.password u) /\
         User.first_name u'
           = overwrite (option_map Some (uu_first_name user)) (User.first_name u) /\
         User.last_name u'
           = overwrite (option_map Some (uu_last_name user)) (User.last_name u) /\
         User.is_active u' = User.is_active u /\
         User.created_at u' = User.created_at u /\
         filter (fun r => negb (has_id user_id r)) (users (working w'))
           = filter (fun r => negb (has_id user_id r)) (users (working w)) /\
         tokens (working w') = tokens (working w) /\
         committed w' = working w') /\
    (user = no_field ->
     update_user user_id user w = (Raise statement_rejected, w)).
Proof.
  intros user_id user w. split; [|split].
  - intros Hfield Hnone. unfold user_rows in Hnone.
    assert (Hv : update_violates User.email (has_id user_id)
                   (values (new_user_data user)) (users (working w)) = false).
    { unfold update_violates. apply not_true_is_false. intros Hex.
      apply existsb_exists in Hex as (r & Hin & Hr).
      rewrite (filter_none _ _ Hnone r Hin) in Hr. discriminate. }
    unfold update_user. rewrite (update_users_values_fields _ _ Hfield).
    unfold update_users_returning, bind, query, gets. simpl.
    rewrite Hv. simpl. rewrite Hnone. simpl.
    eexists. split; [reflexivity|]. simpl. unfold tokens_of, tokens_of_others. simpl.
    repeat split.
    + apply filter_filter_neg.
    + apply filter_filter_neg.
    + induction (tokens (working w)) as [|t l IH]; simpl; [reflexivity|].
      destruct (Nat.eqb (AccessToken.user_id t) user_id) eqn:E; simpl;
        [exact IH | rewrite E; simpl; now rewrite IH].
    + now apply update_none.
  - intros u Hfield Hu Hv. unfold user_rows in Hu.
    destruct (values_fields user u) as (F1 & F2 & F3 & F4 & F5 & F6 & F7).
    unfold update_user. rewrite (update_users_values_fields _ _ Hfield).
    unfold update_users_returning, bind, query, gets. simpl.
    rewrite Hv. simpl. rewrite Hu. simpl.
    eexists. eexists. split; [reflexivity|]. simpl. unfold user_rows. simpl.
    repeat split; try assumption.
    + rewrite filter_update_same, Hu; [reflexivity|].
      intros r. unfold has_id. now rewrite values_keeps_id.
    + apply filter_update_other. intros r Hr. unfold has_id in *.
      now rewrite values_keeps_id, Hr.
  - intros ->. reflexivity.
Qed.


(** C5. [hard_delete_user] on an id that has a User row removes that row,
    every AccessToken of the id and every EmailToken of the row's email,
    commits, and a later login with that email raises NotFound.  On an id
    that has no User row it raises the untyped [AttributeError] (the email is
    read off the lookup's None) before anything is deleted: the NotFound
    branch below it is not reached. *)
Theorem hard_delete_user_cascades_or_AttributeError :
  forall (user_id : UUID) (w : World),
    (user_rows user_id (working w) = [] ->
     hard_delete_user user_id w = (Raise AttributeError, w)) /\
    (forall u,
       user_rows user_id (working w) = [u] ->
       exists w',
         hard_delete_user user_id w = (Ok "User deleted successfully", w') /\
         user_rows user_id (working w') = [] /\
         tokens_of user_id (working w') = [] /\
         email_tokens_for (User.email u) (working w') = [] /\
         committed w' = working w' /\
         (users_with_email (User.email u) (working w) = [u] ->
          forall password,
            login_user {| ul_email := User.email u; ul_password := password |} w'
              = (Raise user_not_found, w'))).
Proof.
  intros user_id w. unfold user_rows. split.
  - intros Hnone. unfold hard_delete_user, bind, query, gets. simpl.
    now rewrite Hnone.
  - intros u Hu. unfold hard_delete_user, logout_user, _delete_email_tokens, delete_users.
    unfold bind, query, gets, execute, commit, modify. simpl.
    rewrite Hu. simpl. rewrite Hu. simpl.
    eexists. split; [reflexivity|]. simpl.
    unfold tokens_of, email_tokens_for, users_with_email. simpl.
    repeat split.
    + apply filter_filter_neg.
    + apply filter_filter_neg.
    + apply (filter_filter_neg (for_email (User.email u))).
    + intros Hemail password. unfold login_user, bind, query, gets. simpl.
      rewrite (filter_after_delete _ (has_id user_id) _ u Hemail); [reflexivity|].
      assert (Hin : In u (filter (has_id user_id) (users (working w))))
        by (rewrite Hu; now left).
      now apply filter_In in Hin.
Qed.
End Users.

Lemma hard_delete_user_cascades_or_AttributeError_witness :
  @hard_delete_user 9 alice_world = (Raise AttributeError, alice_world) /\
  (exists w',
     @hard_delete_user 1 alice_world = (Ok "User deleted successfully", w') /\
     @login_user source_stubs {| ul_email := "alice@example.com"; ul_password := "pw1" |} w'
       = (Raise user_not_found, w')).
Proof.
  destruct (@hard_delete_user_cascades_or_AttributeError source_stubs 9 alice_world)
    as [Hmiss _].
  destruct (@hard_delete_user_cascades_or_AttributeError source_stubs 1 alice_world)
    as [_ Hhit].
  split; [exact (Hmiss eq_refl)|].
  destruct (Hhit alice eq_refl) as (w' & H1 & _ & _ & _ & _ & H2).
  exists w'. split; [exact H1 | exact (H2 eq_refl "pw1")].
Defined.

Lemma update_user_purges_or_applies_witness :
  (exists w',
     @update_user source_stubs 9 rename_alice orphan_world = (Raise user_not_found, w') /\
     tokens_of 9 (working w') = []) /\
  (exists u' w',
     @update_user source_stubs 1 rename_alice orphan_world = (Ok u', w') /\
     User.password u' = "Super secret" /\
     User.first_name u' = Some "Alice" /\
     User.email u' = "alice@example.com") /\
  @update_user source_stubs 9 no_field orphan_world
    = (Raise statement_rejected, orphan_world) /\
  tokens_of 9 (working orphan_world)
    = [AccessToken.mk "stale" "some unknown timestamp" 9].
Proof.
  destruct (@update_user_purges_or_applies source_stubs 9 rename_alice orphan_world)
    as (Hmiss & _ & _).
  destruct (@update_user_purges_or_applies source_stubs 1 rename_alice orphan_world)
    as (_ & Hhit & _).
  destruct (@update_user_purges_or_applies source_stubs 9 no_field orphan_world)
    as (_ & _ & Hempty).
  split; [|split; [|split]].
  - destruct (Hmiss ltac:(discriminate) eq_refl) as (w' & H1 & H2 & _).
    exists w'. now split.
  - destruct (Hhit alice ltac:(discriminate) eq_refl eq_refl)
      as (u' & w' & H1 & _ & _ & H2 & H3 & H4 & _).
    exists u', w'. repeat split; assumption.
  - exact (Hempty eq_refl).
  - reflexivity.
Defined.

(** ** Email tokens *)

Section EmailTokens.
Context {P : Primitives} {Sch : Schema}.

Lemma _validate_email_token_found token r w :
  email_token_rows token (working w) = [r] ->
  _validate_email_token token w
    = (Raise token_expired, email_tokens_purged (EmailToken.email r) w).
Proof.
  intros Hr. unfold _validate_email_token, email_token_rows in *.
  unfold bind, query, gets. simpl. now rewrite Hr.
Qed.

Lemma _validate_email_token_never_returns token w :
  exists e w', _validate_email_token token w = (Raise e, w') /\
               users (working w') = users (working w) /\
               tokens (working w') = tokens (working w).
Proof.
  unfold _validate_email_token, bind, query, gets. simpl.
  destruct (filter (has_token token) (email_tokens (working w))) as [|r [|r' l]];
    simpl; eexists; eexists; repeat split.
Qed.

Lemma email_tokens_purged_no_rows email w :
  email_tokens_for email (working (email_tokens_purged email w)) = [].
Proof. unfold email_tokens_for, email_tokens_purged. simpl. apply filter_filter_neg. Qed.

Lemma create_user_expired token r w :
  email_token_rows token (working w) = [r] ->
  create_user token w = (Raise token_expired, email_tokens_purged (EmailToken.email r) w).
Proof.
  intros Hr. unfold create_user, bind.
  now rewrite (_validate_email_token_found token r w Hr).
Qed.

(** C4 (what the code does). A token that is not found gives NotFound and
    changes nothing.  The expiry test of [_validate_email_token] is the truth
    value of a non-empty string literal: a token that is found is rejected as
    expired whatever its age, also below 60 minutes, and the EmailTokens of
    its email are deleted and the deletion committed.  Registration
    confirmation and password-reset confirmation both start with this check
    and raise the same exception from the same state. *)
Theorem email_token_expired_at_any_age :
  forall (token : string) (w : World),
    (email_token_rows token (working w) = [] ->
     _validate_email_token token w = (Raise token_not_found, w)) /\
    (forall r,
       email_token_rows token (working w) = [r] ->
       _validate_email_token token w
         = (Raise token_expired, email_tokens_purged (EmailToken.email r) w) /\
       (age w r < 60 ->
        fst (_validate_email_token token w) = Raise token_expired) /\
       email_tokens_for (EmailToken.email r)
                        (working (email_tokens_purged (EmailToken.email r) w)) = [] /\
       committed (email_tokens_purged (EmailToken.email r) w)
         = working (email_tokens_purged (EmailToken.email r) w) /\
       create_user token w
         = (Raise token_expired, email_tokens_purged (EmailToken.email r) w) /\
       (forall password,
           reset_password token password w
             = (Raise token_expired, email_tokens_purged (EmailToken.email r) w))).
Proof.
  intros token w. split.
  - intros Hnone. unfold _validate_email_token, email_token_rows in *.
    unfold bind, query, gets. simpl. now rewrite Hnone.
  - intros r Hr.
    pose proof (_validate_email_token_found token r w Hr) as Hv.
    repeat split.
    + exact Hv.
    + intros _. now rewrite Hv.
    + apply email_tokens_purged_no_rows.
    + now apply create_user_expired.
    + intros password. unfold reset_password, bind. now rewrite Hv.
Qed.

Lemma _post_email_token_run user w :
  _post_email_token user w
    = if insert_collides user w
      then (Raise IntegrityError, do_draw w)
      else (Ok (generate_token (entropy w)), posted_world user w).
Proof.
  unfold _post_email_token, insert_collides, new_email_token, posted_world.
  unfold bind, query, gets, draw, clock. simpl.
  destruct (email_token_insert_violates _ (email_tokens (working w))); reflexivity.
Qed.

Lemma posted_world_rows user w :
  insert_collides user w = false ->
  email_token_rows (generate_token (entropy w)) (working (posted_world user w))
    = [new_email_token user w] /\
  (email_tokens_email_unique = true \/ email_tokens_for (uc_email user) (working w) = [] ->
   email_tokens_for (uc_email user) (working (posted_world user w))
     = [new_email_token user w]).
Proof.
  intros Hc. unfold insert_collides, email_token_insert_violates in Hc.
  unfold email_token_rows, email_tokens_for, posted_world. simpl.
  rewrite !filter_app. simpl. unfold has_token, for_email. simpl.
  rewrite !String.eqb_refl. split.
  - rewrite (existsb_false_filter _ _ _ Hc); [reflexivity|].
    intros r Hr. simpl. now rewrite Hr.
  - intros [Hflag | Hnone].
    + rewrite (existsb_false_filter _ _ _ Hc); [reflexivity|].
      intros r Hr. simpl. rewrite Hflag, Hr. simpl. apply orb_true_r.
    + unfold email_tokens_for, for_email in Hnone. now rewrite Hnone.
Qed.

Lemma retry_world_no_rows user w :
  email_tokens_for (uc_email user) (working (retry_world user w)) = [].
Proof.
  unfold email_tokens_for, retry_world, email_tokens_purged. simpl. apply filter_filter_neg.
Qed.

Lemma _check_existing_user_run email w :
  _check_existing_user email w
    = match users_with_email email (working w) with
      | [] => (Ok false, w)
      | [_] => (Ok true, w)
      | _ => (Raise MultipleResultsFound, w)
      end.
Proof.
  unfold _check_existing_user, users_with_email, bind, query, gets. simpl.
  now destruct (filter (has_email email) (users (working w))) as [|u [|u' l]].
Qed.

Lemma create_email_token_run user w :
  create_email_token user w
    = if _validate_email (uc_email user)
      then match users_with_email (uc_email user) (working w) with
           | [] => if insert_collides user w
                   then _post_email_token user (retry_world user w)
                   else (Ok (generate_token (entropy w)), posted_world user w)
           | [_] => (Raise user_already_exists, w)
           | _ => (Raise MultipleResultsFound, w)
           end
      else (Raise invalid_email_format, w).
Proof.
  unfold create_email_token.
  destruct (_validate_email (uc_email user)); [|reflexivity]. simpl.
  unfold bind at 1. rewrite _check_existing_user_run.
  destruct (users_with_email (uc_email user) (working w)) as [|u [|u' l]];
    [|reflexivity ..].
  unfold try_except_IntegrityError. rewrite _post_email_token_run.
  destruct (insert_collides user w); reflexivity.
Qed.

Lemma create_email_token_ok_row user w token w' :
  create_email_token user w = (Ok token, w') ->
  exists row,
    email_token_rows token (working w') = [row] /\
    EmailToken.email row = uc_email user /\
    EmailToken.password row = _hash_password (uc_password user) /\
    committed w' = working w' /\
    (email_tokens_email_unique = true \/ insert_collides user w = true \/
     email_tokens_for (uc_email user) (working w) = [] ->
     email_tokens_for (uc_email user) (working w') = [row]).
Proof.
  rewrite (create_email_token_run user w). intros Hok.
  destruct (_validate_email (uc_email user)); [|discriminate].
  destruct (users_with_email (uc_email user) (working w)) as [|u [|u' l]];
    [|discriminate ..].
  destruct (insert_collides user w) eqn:Hc.
  - rewrite _post_email_token_run in Hok.
    destruct (insert_collides user (retry_world user w)) eqn:Hc'; [discriminate|].
    injection Hok as <- <-.
    destruct (posted_world_rows user (retry_world user w) Hc') as [Hrow Hone].
    exists (new_email_token user (retry_world user w)).
    repeat split; [exact Hrow|].
    intros _. apply Hone. right. apply retry_world_no_rows.
  - injection Hok as <- <-.
    destruct (posted_world_rows user w Hc) as [Hrow Hone].
    exists (new_email_token user w).
    repeat split; [exact Hrow|].
    intros [Hflag | [Habs | Hnone]]; [apply Hone; now left | discriminate
                                      | apply Hone; now right].
Qed.


(** C2 (what the code does). After a registration that returned a token
    (made on a session with no open transaction), confirming that token does
    not create a user: [create_user] raises
    "Token expired" out of [_validate_email_token], the pending EmailToken is
    deleted, the Users table is as before, and a login with the registered
    credentials raises NotFound.  No state and no token make [create_user]
    return. *)
Theorem register_confirm_raises_expired :
  forall (user : UserCreate) (w w1 : World) (token : string),
    committed w = working w ->
    create_email_token user w = (Ok token, w1) ->
    exists w2,
      create_user token w1 = (Raise token_expired, w2) /\
      users (working w2) = users (working w) /\
      email_tokens_for (uc_email user) (working w2) = [] /\
      login_user {| ul_email := uc_email user; ul_password := uc_password user |} w2
        = (Raise user_not_found, w2) /\
      (forall token' w0 access_token w3, create_user token' w0 <> (Ok access_token, w3)).
Proof.
  intros user w w1 token Hclean Hok.
  destruct (create_email_token_ok_row user w token w1 Hok) as (row & Hrows & Hemail & _).
  pose proof (create_user_expired token row w1 Hrows) as Hcreate.
  pose proof (email_tokens_purged_no_rows (EmailToken.email row) w1) as Hgone.
  rewrite Hemail in *.
  assert (Husers : users (working w1) = users (working w) /\
                   users_with_email (uc_email user) (working w) = []).
  { rewrite create_email_token_run in Hok.
    destruct (_validate_email (uc_email user)); [|discriminate].
    destruct (users_with_email (uc_email user) (working w)) as [|u [|u' l]];
      [|discriminate ..].
    split; [|reflexivity].
    destruct (insert_collides user w).
    - rewrite _post_email_token_run in Hok.
      destruct (insert_collides user (retry_world user w)); [discriminate|].
      injection Hok as _ <-. simpl. now rewrite Hclean.
    - now injection Hok as _ <-. }
  destruct Husers as [Husers Hnone].
  exists (email_tokens_purged (uc_email user) w1). repeat split.
  - exact Hcreate.
  - exact Husers.
  - exact Hgone.
  - unfold login_user, bind, query, gets. simpl.
    unfold users_with_email in Hnone. now rewrite Husers, Hnone.
  - intros token' w0 access_token w3 Habs. unfold create_user, bind in Habs.
    destruct (_validate_email_token_never_returns token' w0) as (e & w' & He & _).
    rewrite He in Habs. discriminate.
Qed.
End EmailTokens.

Lemma email_token_expired_at_any_age_witness :
  age pending_world (EmailToken.mk "bob@example.com" "Super secret" "link-bob" 100) < 60 /\
  fst (@_validate_email_token "link-bob" pending_world) = Raise token_expired /\
  @create_user source_stubs "link-bob" pending_world
    = (Raise token_expired, email_tokens_purged "bob@example.com" pending_world) /\
  email_tokens (working (email_tokens_purged "bob@example.com" pending_world)) = [].
Proof.
  assert (Hfresh : age pending_world
                     (EmailToken.mk "bob@example.com" "Super secret" "link-bob" 100) < 60)
    by (vm_compute; lia).
  destruct (@email_token_expired_at_any_age source_stubs "link-bob" pending_world)
    as [_ Hfound].
  destruct (Hfound (EmailToken.mk "bob@example.com" "Super secret" "link-bob" 100) eq_refl)
    as (_ & Hyoung & _ & _ & Hcreate & _).
  split; [exact Hfresh|]. split; [exact (Hyoung Hfresh)|]. split; [exact Hcreate|].
  reflexivity.
Defined.

(** The pattern on some addresses; the last one shows [$] accepting a
    newline at the end. *)
Example _validate_email_examples :
  _validate_email "alice@example.com" = true /\
  _validate_email "a.b+c%d@sub-domain.example.org" = true /\
  _validate_email "alice@example" = false /\
  _validate_email "alice@example.c" = false /\
  _validate_email "alice@@example.com" = false /\
  _validate_email "@example.com" = false /\
  _validate_email "alice example@x.com" = false /\
  _validate_email "" = false /\
  _validate_email (String.append "alice@example.com" (String "010"%char "")) = true.
Proof. vm_compute. repeat split. Qed.


(** When the store is keyed by the token string alone, a second registration
    of an email goes through at the first attempt and leaves both links. *)
Example two_links_when_token_keyed_only :
  exists w',
    @create_email_token distinct_stubs token_keyed_only bob pending_world
      = (Ok "token-", w') /\
    map EmailToken.token (email_tokens_for "bob@example.com" (working w'))
      = ["link-bob"; "token-"].
Proof. eexists. split; reflexivity. Qed.


Lemma register_confirm_raises_expired_witness :
  exists token w1 w2,
    @create_email_token source_stubs one_token_per_email bob (fresh_world empty_store 0)
      = (Ok token, w1) /\
    @create_user source_stubs token w1 = (Raise token_expired, w2) /\
    users (working w2) = [] /\
    @login_user source_stubs {| ul_email := "bob@example.com"; ul_password := "pw1" |} w2
      = (Raise user_not_found, w2).
Proof.
  pose (w1 := snd (@create_email_token source_stubs one_token_per_email bob
                     (fresh_world empty_store 0))).
  assert (Hrun : @create_email_token source_stubs one_token_per_email bob
                   (fresh_world empty_store 0)
                 = (Ok generate_token_source, w1)) by reflexivity.
  destruct (@register_confirm_raises_expired source_stubs one_token_per_email bob
              (fresh_world empty_store 0) w1 generate_token_source eq_refl Hrun)
    as (w2 & H1 & H2 & _ & H3 & _).
  exists generate_token_source, w1, w2. repeat split; assumption.
Defined.

(** ** Access tokens *)

Section Preservation.
Variable I : World -> Prop.

Lemma preserves_ret {A} (a : A) : preserves I (ret a).
Proof. intros w Hw. exact Hw. Qed.

Lemma preserves_raise {A} (e : exn) : preserves I (@raise World A e).
Proof. intros w Hw. exact Hw. Qed.

Lemma preserves_gets {A} (f : World -> A) : preserves I (gets f).
Proof. intros w Hw. exact Hw. Qed.

Lemma preserves_query {A} (f : Store -> A) : preserves I (query f).
Proof. intros w Hw. exact Hw. Qed.

Lemma preserves_clock : preserves I clock.
Proof. intros w Hw. exact Hw. Qed.

Lemma preserves_bind {A B} (m : DB A) (f : A -> DB B) :
  preserves I m -> (forall a, preserves I (f a)) -> preserves I (bind m f).
Proof.
  intros Hm Hf w Hw. unfold bind. specialize (Hm w Hw).
  destruct (m w) as [[a|e] w']; simpl in *; [now apply Hf | exact Hm].
Qed.

Lemma preserves_try {A} (m h : DB A) :
  preserves I m -> preserves I h -> preserves I (try_except_IntegrityError m h).
Proof.
  intros Hm Hh w Hw. unfold try_except_IntegrityError. specialize (Hm w Hw).
  destruct (m w) as [[a|[]] w']; simpl in *; try exact Hm. now apply Hh.
Qed.

Lemma preserves_scalar_one_or_none {A} (rows : list A) :
  preserves I (scalar_one_or_none rows).
Proof. intros w Hw. now destruct rows as [|x [|y l]]. Qed.

Lemma preserves_scalar_one {A} (rows : list A) : preserves I (scalar_one rows).
Proof. intros w Hw. now destruct rows as [|x [|y l]]. Qed.

Lemma preserves_modify (f : World -> World) :
  (forall w, I w -> I (f w)) -> preserves I (modify f).
Proof. intros Hf w Hw. now apply Hf. Qed.
End Preservation.

Section AccessTokens.
Context {P : Primitives} {Sch : Schema}.

Lemma logout_user_run user_id w : logout_user user_id w = (Ok tt, logged_out user_id w).
Proof. reflexivity. Qed.

Lemma _create_access_token_run user_id w :
  _create_access_token user_id w
    = if issue_collides user_id w
      then (Raise IntegrityError, do_rollback (do_draw (logged_out user_id w)))
      else (Ok (generate_token (entropy w)), issued_world user_id w).
Proof.
  unfold _create_access_token, add_token_and_commit, issue_collides, issued_world.
  unfold bind at 1. rewrite logout_user_run.
  unfold bind, draw, query, gets. simpl.
  unfold new_access_token. simpl.
  destruct (token_insert_violates _ _); reflexivity.
Qed.

Lemma tokens_of_logged_out user_id w :
  tokens_of user_id (working (logged_out user_id w)) = [].
Proof. unfold tokens_of, logged_out. simpl. apply filter_filter_neg. Qed.

Lemma tokens_of_issued user_id w :
  tokens_of user_id (working (issued_world user_id w)) = [new_access_token user_id w].
Proof.
  unfold tokens_of, issued_world. simpl. rewrite filter_app. simpl.
  rewrite Nat.eqb_refl.
  now rewrite (filter_filter_neg (fun t => Nat.eqb (AccessToken.user_id t) user_id)).
Qed.

Lemma filter_filter_le {A} (p q : A -> bool) (l : list A) :
  length (filter q (filter p l)) <= length (filter q l).
Proof.
  induction l as [|r l IH]; simpl; [lia|].
  destruct (p r), (q r) eqn:E; simpl; rewrite ?E; simpl; lia.
Qed.

Lemma single_token_filter p s :
  single_token s -> single_token (with_tokens (filter p) s).
Proof.
  intros Hs uid. unfold tokens_of. simpl.
  etransitivity; [apply filter_filter_le | apply Hs].
Qed.

Lemma single_token_issued user_id (row : AccessToken.t) s :
  AccessToken.user_id row = user_id ->
  single_token s ->
  single_token
    (with_tokens (fun l => l ++ [row])
       (with_tokens (filter (fun t => negb (Nat.eqb (AccessToken.user_id t) user_id))) s)).
Proof.
  intros Hrow Hs uid. unfold tokens_of. simpl. rewrite filter_app, length_app. simpl.
  rewrite Hrow. destruct (Nat.eqb user_id uid) eqn:E; simpl.
  - apply Nat.eqb_eq in E as <-.
    rewrite (filter_filter_neg (fun t => Nat.eqb (AccessToken.user_id t) user_id)).
    simpl. lia.
  - rewrite Nat.add_0_r. etransitivity; [apply filter_filter_le | apply Hs].
Qed.

Lemma single_active_session_initially t :
  single_active_session (fresh_world empty_store t).
Proof. split; intros uid; simpl; lia. Qed.

Lemma preserves_commit : preserves single_active_session commit.
Proof. apply preserves_modify. intros w [Hw _]. split; exact Hw. Qed.

Lemma preserves_rollback : preserves single_active_session rollback.
Proof. apply preserves_modify. intros w [_ Hc]. split; exact Hc. Qed.

Lemma preserves_draw : preserves single_active_session draw.
Proof. intros w Hw. exact Hw. Qed.

Lemma preserves_execute (f : Store -> Store) :
  (forall s, single_token s -> single_token (f s)) ->
  preserves single_active_session (execute f).
Proof. intros Hf. apply preserves_modify. intros w [Hw Hc]. split; [now apply Hf | exact Hc]. Qed.

Lemma preserves_logout_user user_id : preserves single_active_session (logout_user user_id).
Proof.
  intros w [Hw _]. rewrite logout_user_run. simpl.
  split; now apply single_token_filter.
Qed.

Lemma preserves__create_access_token user_id :
  preserves single_active_session (_create_access_token user_id).
Proof.
  intros w Hw. rewrite _create_access_token_run.
  pose proof (preserves_logout_user user_id w Hw) as [Hl _].
  rewrite logout_user_run in Hl. simpl in Hl.
  destruct (issue_collides user_id w); simpl.
  - split; exact Hl.
  - destruct Hw as [Hw _].
    split; now apply (single_token_issued user_id (new_access_token user_id w)).
Qed.
End AccessTokens.

Ltac preserve_step :=
  match goal with
  | |- preserves _ (bind _ _) => apply preserves_bind; [|intros ?]
  | |- preserves _ (ignore _) => unfold ignore
  | |- preserves _ (ret _) => apply preserves_ret
  | |- preserves _ (raise _) => apply preserves_raise
  | |- preserves _ (query _) => apply preserves_query
  | |- preserves _ clock => apply preserves_clock
  | |- preserves _ draw => apply preserves_draw
  | |- preserves _ commit => apply preserves_commit
  | |- preserves _ rollback => apply preserves_rollback
  | |- preserves _ (scalar_one_or_none _) => apply preserves_scalar_one_or_none
  | |- preserves _ (scalar_one _) => apply preserves_scalar_one
  | |- preserves _ (try_except_IntegrityError _ _) => apply preserves_try
  | |- preserves _ (logout_user _) => apply preserves_logout_user
  | |- preserves _ (_create_access_token _) => apply preserves__create_access_token
  | |- preserves _ (execute (with_tokens (filter _))) =>
      apply preserves_execute; intros; now apply single_token_filter
  | |- preserves _ (execute _) => apply preserves_execute; intros ? Hs; exact Hs
  | |- preserves _ (if ?b then _ else _) => destruct b
  | |- preserves _ (match ?x with _ => _ end) => destruct x
  end.

Ltac preserve := repeat preserve_step.

Section Invariant.
Context {P : Primitives} {Sch : Schema}.

Lemma preserves_update_users_returning p f :
  preserves single_active_session (update_users_returning p f).
Proof. unfold update_users_returning. preserve. Qed.

Lemma preserves_activate_user user_id : preserves single_active_session (activate_user user_id).
Proof.
  unfold activate_user.
  apply preserves_bind; [apply preserves_update_users_returning | intros ?]. preserve.
Qed.

Lemma preserves__delete_email_tokens email :
  preserves single_active_session (_delete_email_tokens email).
Proof. unfold _delete_email_tokens. preserve. Qed.

Lemma preserves__validate_email_token token :
  preserves single_active_session (_validate_email_token token).
Proof.
  unfold _validate_email_token. preserve; apply preserves__delete_email_tokens.
Qed.

Lemma preserves__post_email_token user :
  preserves single_active_session (_post_email_token user).
Proof. unfold _post_email_token. preserve. Qed.

Lemma preserves_update_email_token email :
  preserves single_active_session (update_email_token email).
Proof. unfold update_email_token. preserve. Qed.

Lemma preserves_create_user_attempts attempts pending_rollback user_data :
  preserves single_active_session
            (create_user_attempts attempts pending_rollback user_data).
Proof.
  revert pending_rollback.
  induction attempts as [|attempt rest IH]; intros pending_rollback; simpl;
    [apply preserves_raise|].
  apply preserves_try.
  - unfold add_user_and_commit. preserve.
  - destruct (Nat.eqb attempt 2); [apply preserves_raise | apply IH].
Qed.

Lemma preserves_create_user token : preserves single_active_session (create_user token).
Proof.
  unfold create_user.
  preserve_step; [apply preserves__validate_email_token|].
  preserve_step; [apply preserves_create_user_attempts|]. preserve.
Qed.

Lemma preserves_login_user user : preserves single_active_session (login_user user).
Proof. unfold login_user. preserve. apply preserves_activate_user. Qed.

Lemma preserves_update_user user_id user :
  preserves single_active_session (update_user user_id user).
Proof.
  unfold update_user, update_users_values.
  preserve_step;
    [destruct (new_user_data user);
     [apply preserves_raise | apply preserves_update_users_returning]|].
  preserve.
Qed.

Lemma preserves_deactivate_user user_id :
  preserves single_active_session (deactivate_user user_id).
Proof.
  unfold deactivate_user. preserve_step; [preserve|].
  preserve_step; [apply preserves_update_users_returning|]. preserve.
Qed.

Lemma preserves_hard_delete_user user_id :
  preserves single_active_session (hard_delete_user user_id).
Proof.
  unfold hard_delete_user, delete_users. preserve. apply preserves__delete_email_tokens.
Qed.

Lemma preserves_create_email_token user :
  preserves single_active_session (create_email_token user).
Proof.
  unfold create_email_token, _check_existing_user. preserve;
    try apply preserves__post_email_token; apply preserves__delete_email_tokens.
Qed.

Lemma preserves_reset_password token password :
  preserves single_active_session (reset_password token password).
Proof.
  unfold reset_password.
  preserve_step; [apply preserves__validate_email_token|].
  preserve. apply preserves_update_email_token.
Qed.

Lemma run_preserves_single_active_session (op : Operation) :
  preserves single_active_session (run op).
Proof.
  destruct op; simpl; unfold ignore;
    try (apply preserves_bind; [|intros ?; apply preserves_ret]).
  - apply preserves_create_user.
  - apply preserves_login_user.
  - apply preserves_logout_user.
  - apply preserves_update_user.
  - apply preserves_activate_user.
  - apply preserves_deactivate_user.
  - apply preserves_hard_delete_user.
  - unfold validate_token. preserve.
  - apply preserves_create_email_token.
  - apply preserves_update_email_token.
  - apply preserves_reset_password.
  - unfold get_start_story. preserve.
  - unfold load_game. preserve.
  - unfold get_user_profile. preserve.
  - unfold save_game_route. preserve.
Qed.
End Invariant.

Section Issuance.
Context {P : Primitives} {Sch : Schema}.

Lemma update_violates_same_key {A} (key : A -> string) p f (tbl : list A) :
  (forall r, key (f r) = key r) -> update_violates key p f tbl = false.
Proof.
  intros Hkey. unfold update_violates. apply not_true_is_false. intros Hex.
  apply existsb_exists in Hex as (r & _ & Hr).
  rewrite Hkey, String.eqb_refl, andb_false_r in Hr. discriminate.
Qed.

Lemma _create_access_token_ok user_id w token w' :
  _create_access_token user_id w = (Ok token, w') ->
  token = generate_token (entropy w) /\
  w' = issued_world user_id w /\
  filter (fun t => String.eqb (AccessToken.token t) token)
         (tokens_of_others user_id (working w)) = [].
Proof.
  rewrite _create_access_token_run. destruct (issue_collides user_id w) eqn:Hc;
    [discriminate|].
  intros H. injection H as <- <-. repeat split.
  unfold issue_collides, token_insert_violates in Hc.
  apply (existsb_false_filter _ _ _ Hc). intros r Hr. exact Hr.
Qed.

Lemma activate_user_ok user_id w w0 :
  activate_user user_id w = (Ok tt, w0) ->
  tokens (working w0) = tokens (working w) /\
  users (working w0)
    = map (fun r => if has_id user_id r then set_is_active true r else r)
          (users (working w)).
Proof.
  unfold activate_user, update_users_returning. unfold bind at 1. unfold bind at 1.
  unfold query, gets. simpl.
  rewrite update_violates_same_key by reflexivity.
  unfold bind, execute, modify, commit. simpl.
  destruct (map (set_is_active true) (filter (has_id user_id) (users (working w))))
    as [|x [|y l]]; simpl; unfold raise, ret; intros H; try discriminate.
  injection H as <-. simpl. now split.
Qed.

(** What a successful login did. *)
Lemma login_user_ok user w token w1 :
  login_user user w = (Ok token, w1) ->
  exists u u0 w0,
    users_with_email (ul_email user) (working w) = [u] /\
    checkpw (ul_password user) (User.password u) = Some true /\
    _create_access_token (User.id u) w0 = (Ok token, w1) /\
    tokens (working w0) = tokens (working w) /\
    users_with_email (ul_email user) (working w0) = [u0] /\
    User.id u0 = User.id u /\ User.password u0 = User.password u /\
    User.is_active u0 = true.
Proof.
  unfold login_user, users_with_email.
  cbv beta iota delta [bind query gets scalar_one_or_none ret raise].
  destruct (filter (has_email (ul_email user)) (users (working w)))
    as [|u [|u' l]] eqn:Hu; try discriminate.
  destruct (checkpw (ul_password user) (User.password u)) as [[|]|] eqn:Hpw;
    simpl; try discriminate.
  destruct (User.is_active u) eqn:Hact; simpl.
  - intros H. exists u, u, w. repeat split; assumption.
  - destruct (activate_user (User.id u) w) as [[[]|e] w0] eqn:Ha; [|discriminate].
    intros H. destruct (activate_user_ok _ _ _ Ha) as [Htok Husers].
    exists u, (set_is_active true u), w0. repeat split; try assumption.
    rewrite Husers, filter_map_commute, Hu.
    + simpl. unfold has_id. now rewrite Nat.eqb_refl.
    + intros r. now destruct (has_id (User.id u) r).
Qed.

Lemma tokens_of_others_idem user_id s :
  filter (fun t => negb (Nat.eqb (AccessToken.user_id t) user_id)) (tokens_of_others user_id s)
    = tokens_of_others user_id s.
Proof.
  unfold tokens_of_others. induction (tokens s) as [|t l IH]; simpl; [reflexivity|].
  destruct (Nat.eqb (AccessToken.user_id t) user_id) eqn:E; simpl; [exact IH|].
  rewrite E. simpl. now rewrite IH.
Qed.
End Issuance.

Section SingleSession.
Context {P : Primitives} {Sch : Schema}.

Lemma validate_token_run token w :
  validate_token token w
    = match filter (fun t => String.eqb (AccessToken.token t) token) (tokens (working w)) with
      | [] => (Raise invalid_token, w)
      | [td] => (Ok (AccessToken.user_id td), w)
      | _ => (Raise MultipleResultsFound, w)
      end.
Proof.
  unfold validate_token, bind, query, gets. simpl.
  now destruct (filter _ (tokens (working w))) as [|td [|td' l]].
Qed.

Lemma tokens_of_others_logged_out user_id w :
  tokens_of_others user_id (working (logged_out user_id w))
    = tokens_of_others user_id (working w).
Proof. unfold logged_out. simpl. apply (tokens_of_others_idem user_id (working w)). Qed.

Lemma commits_between_cons (w w' : World) (new : list Store) :
  journal w' = new ++ journal w -> commits_between w w' = new.
Proof.
  intros H. unfold commits_between. rewrite H, length_app.
  replace (length new + length (journal w) - length (journal w)) with (length new) by lia.
  rewrite firstn_app, firstn_all, Nat.sub_diag. simpl. apply app_nil_r.
Qed.

(** C6 (as the code has it). [_create_access_token] commits twice.  The
    first commit, made by [logout_user], holds the deletion of the user's
    tokens and nothing else: in that committed state the user has no token,
    the tokens of the other users being untouched.  When the store accepts
    the new row, the second commit adds it, and the states committed by the
    operation are exactly those two; when the store rejects it, the first
    commit stays and the user is left without a token. *)
Theorem issuance_commits_deletion_first :
  forall (user_id : UUID) (w : World),
    tokens_of user_id (working (logged_out user_id w)) = [] /\
    tokens_of_others user_id (working (logged_out user_id w))
      = tokens_of_others user_id (working w) /\
    (issue_collides user_id w = false ->
     exists w',
       _create_access_token user_id w = (Ok (generate_token (entropy w)), w') /\
       commits_between w w' = [working w'; working (logged_out user_id w)] /\
       committed w' = working w' /\
       tokens_of user_id (working w') = [new_access_token user_id w]) /\
    (issue_collides user_id w = true ->
     exists w',
       _create_access_token user_id w = (Raise IntegrityError, w') /\
       commits_between w w' = [working (logged_out user_id w)] /\
       committed w' = working (logged_out user_id w) /\
       working w' = working (logged_out user_id w)).
Proof.
  intros user_id w. rewrite _create_access_token_run.
  split; [apply tokens_of_logged_out|].
  split; [apply tokens_of_others_logged_out|].
  split; intros ->.
  - exists (issued_world user_id w). split; [reflexivity|].
    split; [|split; [reflexivity | apply tokens_of_issued]].
    now apply (commits_between_cons w _ [_; _]).
  - eexists. split; [reflexivity|].
    split; [now apply (commits_between_cons w _ [_]) | now split].
Qed.

(** Two successful logins with the same credentials. *)
Lemma two_logins (user : UserLogin) (w w1 w2 : World) (t1 t2 : string) :
  login_user user w = (Ok t1, w1) ->
  login_user user w1 = (Ok t2, w2) ->
  exists user_id n1 n2,
    t1 = generate_token n1 /\ t2 = generate_token n2 /\
    validate_token t2 w2 = (Ok user_id, w2) /\
    tokens_of user_id (working w2)
      = [AccessToken.mk t2 "some unknown timestamp" user_id] /\
    (t1 <> t2 -> validate_token t1 w2 = (Raise invalid_token, w2)).
Proof.
  intros H1 H2.
  destruct (login_user_ok _ _ _ _ H1)
    as (u & u0 & w0 & Hu & _ & Hc1 & _ & Hu0 & Hid0 & _).
  destruct (_create_access_token_ok _ _ _ _ Hc1) as (Ht1 & -> & Hfree1).
  destruct (login_user_ok _ _ _ _ H2)
    as (u' & u1 & w0' & Hu' & _ & Hc2 & Htok' & _).
  assert (Hsame : u' = u0).
  { unfold users_with_email in Hu', Hu0. unfold issued_world in Hu'. simpl in Hu'.
    rewrite Hu0 in Hu'. now injection Hu' as <-. }
  subst u'. rewrite Hid0 in Hc2.
  destruct (_create_access_token_ok _ _ _ _ Hc2) as (Ht2 & -> & Hfree2).
  exists (User.id u), (entropy w0), (entropy w0').
  split; [exact Ht1|]. split; [exact Ht2|].
  assert (Htokens : tokens (working (issued_world (User.id u) w0'))
                    = tokens_of_others (User.id u) (working w0)
                      ++ [AccessToken.mk t2 "some unknown timestamp" (User.id u)]).
  { unfold issued_world at 1. simpl. rewrite Htok'. unfold issued_world. simpl.
    rewrite filter_app. simpl. rewrite Nat.eqb_refl. simpl. rewrite app_nil_r.
    pose proof (tokens_of_others_idem (User.id u) (working w0)) as Hidem.
    unfold tokens_of_others in *. rewrite Hidem.
    unfold new_access_token. now rewrite <- Ht2. }
  assert (Hothers : tokens_of_others (User.id u) (working w0')
                    = tokens_of_others (User.id u) (working w0)).
  { unfold tokens_of_others at 1. rewrite Htok'. unfold issued_world. simpl.
    rewrite filter_app. simpl. rewrite Nat.eqb_refl. simpl. rewrite app_nil_r.
    apply (tokens_of_others_idem (User.id u) (working w0)). }
  rewrite Hothers in Hfree2.
  split; [|split].
  + rewrite validate_token_run, Htokens, filter_app, Hfree2.
    simpl. now rewrite String.eqb_refl.
  + rewrite tokens_of_issued. unfold new_access_token. now rewrite <- Ht2.
  + intros Hneq. rewrite validate_token_run, Htokens, filter_app, Hfree1.
    simpl. apply String.eqb_neq in Hneq. rewrite String.eqb_sym in Hneq.
    now rewrite Hneq.
Qed.

(** C3. Every operation keeps at most one AccessToken per user, in the
    working and in the committed store.  A successful issuance leaves the
    user exactly the token it returns.  After two successful logins with
    the same credentials the second token validates to the user, whose only
    token it is, and the first token string raises Unauthorized whenever it
    differs from the second.  With the body the sources give
    [generate_token], which returns one string at every call, it does not
    differ: both logins return that string, and the token of the first
    login validates after the second. *)
Theorem single_active_session_kept :
  (forall (op : Operation) (w : World),
      single_active_session w -> single_active_session (snd (run op w))) /\
  (forall (user_id : UUID) (w w' : World) (token : string),
      _create_access_token user_id w = (Ok token, w') ->
      tokens_of user_id (working w')
        = [AccessToken.mk token "some unknown timestamp" user_id]) /\
  (forall (user : UserLogin) (w w1 w2 : World) (t1 t2 : string),
      login_user user w = (Ok t1, w1) ->
      login_user user w1 = (Ok t2, w2) ->
      exists user_id,
        validate_token t2 w2 = (Ok user_id, w2) /\
        tokens_of user_id (working w2)
          = [AccessToken.mk t2 "some unknown timestamp" user_id] /\
        (t1 <> t2 -> validate_token t1 w2 = (Raise invalid_token, w2))) /\
  (forall (user : UserLogin) (w w1 w2 : World) (t1 t2 : string),
      (forall n, generate_token n = generate_token_source) ->
      login_user user w = (Ok t1, w1) ->
      login_user user w1 = (Ok t2, w2) ->
      t1 = generate_token_source /\ t2 = t1 /\
      exists user_id, validate_token t1 w2 = (Ok user_id, w2)).
Proof.
  split; [exact run_preserves_single_active_session|]. split; [|split].
  - intros user_id w w' token H.
    destruct (_create_access_token_ok _ _ _ _ H) as (-> & -> & _).
    apply tokens_of_issued.
  - intros user w w1 w2 t1 t2 H1 H2.
    destruct (two_logins _ _ _ _ _ _ H1 H2) as (user_id & _ & _ & _ & _ & Hv & Ht & Hd).
    exists user_id. now repeat split.
  - intros user w w1 w2 t1 t2 Hconst H1 H2.
    destruct (two_logins _ _ _ _ _ _ H1 H2) as (user_id & n1 & n2 & -> & -> & Hv & _).
    rewrite !Hconst in *. repeat split. now exists user_id.
Qed.
End SingleSession.

(** C6 (as stated) fails: issuing a token to alice, who holds one, commits a
    state in which she holds none, and the insertion then succeeds. *)
Lemma issuance_not_atomic : ~ @issuance_atomic source_stubs 1 alice_world.
Proof.
  intros Hatomic.
  apply (Hatomic generate_token_source (@issued_world source_stubs 1 alice_world)
           eq_refl (working (logged_out 1 alice_world))).
  - right. left. reflexivity.
  - reflexivity.
Qed.

Lemma issuance_commits_deletion_first_witness :
  exists w',
    @_create_access_token source_stubs 1 alice_world = (Ok generate_token_source, w') /\
    commits_between alice_world w' = [working w'; working (logged_out 1 alice_world)] /\
    tokens_of 1 (working (logged_out 1 alice_world)) = [] /\
    length (tokens_of 1 (working w')) = 1.
Proof.
  destruct (@issuance_commits_deletion_first source_stubs 1 alice_world)
    as (Hzero & _ & Hok & _).
  destruct (Hok eq_refl) as (w' & H1 & H2 & _ & H3).
  exists w'. repeat split; try assumption. now rewrite H3.
Defined.

Lemma single_active_session_kept_witness :
  (exists w1 w2,
     @login_user distinct_stubs alice_login alice_hashed_world = (Ok "token-", w1) /\
     @login_user distinct_stubs alice_login w1 = (Ok "token-i", w2) /\
     @validate_token "token-" w2 = (Raise invalid_token, w2) /\
     exists user_id, @validate_token "token-i" w2 = (Ok user_id, w2)) /\
  (exists t1 w1 t2 w2,
     @login_user source_stubs alice_login alice_bcrypt_world = (Ok t1, w1) /\
     @login_user source_stubs alice_login w1 = (Ok t2, w2) /\
     t2 = t1 /\
     exists user_id, @validate_token t1 w2 = (Ok user_id, w2)).
Proof.
  split.
  - pose (w1 := snd (@login_user distinct_stubs alice_login alice_hashed_world)).
    pose (w2 := snd (@login_user distinct_stubs alice_login w1)).
    assert (H1 : @login_user distinct_stubs alice_login alice_hashed_world
                 = (Ok "token-", w1)) by reflexivity.
    assert (H2 : @login_user distinct_stubs alice_login w1 = (Ok "token-i", w2))
      by reflexivity.
    destruct (@single_active_session_kept distinct_stubs one_token_per_email)
      as (_ & _ & Hlogin & _).
    destruct (Hlogin alice_login alice_hashed_world w1 w2 "token-" "token-i" H1 H2)
      as (user_id & Hv2 & _ & Hv1).
    exists w1, w2.
    split; [exact H1|]. split; [exact H2|].
    split; [apply Hv1; discriminate | exists user_id; exact Hv2].
  - pose (w1 := snd (@login_user source_stubs alice_login alice_bcrypt_world)).
    pose (w2 := snd (@login_user source_stubs alice_login w1)).
    assert (H1 : @login_user source_stubs alice_login alice_bcrypt_world
                 = (Ok generate_token_source, w1)) by reflexivity.
    assert (H2 : @login_user source_stubs alice_login w1
                 = (Ok generate_token_source, w2)) by reflexivity.
    destruct (@single_active_session_kept source_stubs one_token_per_email)
      as (_ & _ & _ & Hsame).
    destruct (Hsame alice_login alice_bcrypt_world w1 w2
                    generate_token_source generate_token_source
                    (fun _ => eq_refl) H1 H2)
      as (_ & Heq & Hv).
    exists generate_token_source, w1, generate_token_source, w2.
    split; [exact H1|]. split; [exact H2|]. split; [exact Heq | exact Hv].
Defined.

(** * Further properties of the operations *)

(** ** Logout, login and the active flag *)

Section Sessions.
Context {P : Primitives} {Sch : Schema}.

(** X1. [logout_user] never raises.  It deletes the tokens of the user and
    commits; the tokens of other users and every other table are untouched;
    a second logout finds nothing to delete and leaves the store as the
    first left it. *)
Theorem logout_user_idempotent :
  forall (user_id : UUID) (w : World),
  exists w1 w2,
    logout_user user_id w = (Ok tt, w1) /\
    logout_user user_id w1 = (Ok tt, w2) /\
    tokens_of user_id (working w1) = [] /\
    tokens_of_others user_id (working w1) = tokens_of_others user_id (working w) /\
    users (working w1) = users (working w) /\
    email_tokens (working w1) = email_tokens (working w) /\
    game_sessions (working w1) = game_sessions (working w) /\
    starting_stories (working w1) = starting_stories (working w) /\
    committed w1 = working w1 /\
    working w2 = working w1 /\
    committed w2 = committed w1.
Proof.
  intros user_id w.
  exists (logged_out user_id w), (logged_out user_id (logged_out user_id w)).
  assert (Hidem : working (logged_out user_id (logged_out user_id w))
                  = working (logged_out user_id w)).
  { unfold logged_out, with_tokens. simpl. f_equal.
    apply (tokens_of_others_idem user_id (working w)). }
  repeat split; try reflexivity.
  - apply tokens_of_logged_out.
  - apply tokens_of_others_logged_out.
  - exact Hidem.
  - simpl. exact Hidem.
Qed.

Lemma logged_out_revokes user_id token w w0 :
  validate_token token w = (Ok user_id, w0) ->
  w0 = w /\
  validate_token token (logged_out user_id w)
    = (Raise invalid_token, logged_out user_id w).
Proof.
  intros Hvalid. rewrite validate_token_run in Hvalid. rewrite validate_token_run.
  destruct (filter (fun t => String.eqb (AccessToken.token t) token) (tokens (working w)))
    as [|td [|td' l]] eqn:Hrows; try discriminate.
  injection Hvalid as Hid <-. split; [reflexivity|].
  unfold logged_out. simpl.
  rewrite (filter_after_delete _ (fun t => Nat.eqb (AccessToken.user_id t) user_id)
             _ td Hrows); [reflexivity|].
  rewrite Hid. apply Nat.eqb_refl.
Qed.

(** X2. A token that validates to a user raises Unauthorized once that user
    is logged out; validation itself never changes the state. *)
Theorem logout_revokes_token :
  forall (user_id : UUID) (token : string) (w w' w1 : World),
    validate_token token w = (Ok user_id, w') ->
    logout_user user_id w = (Ok tt, w1) ->
    w' = w /\
    validate_token token w1 = (Raise invalid_token, w1).
Proof.
  intros user_id token w w' w1 Hvalid Hout.
  rewrite logout_user_run in Hout. injection Hout as <-.
  exact (logged_out_revokes user_id token w w' Hvalid).
Qed.

(** X3. [login_user] fails without touching the store: NotFound when no
    user has the email, Unauthorized when the user's stored hash does not
    verify the password.  It returns a token only when exactly one user has
    the email and the password verifies.  When the stored string is no
    bcrypt hash, the [ValueError] of [bcrypt.checkpw] leaves the operation,
    the store untouched. *)
Theorem login_user_rejects :
  forall (user : UserLogin) (w : World),
    (users_with_email (ul_email user) (working w) = [] ->
     login_user user w = (Raise user_not_found, w)) /\
    (forall u,
        users_with_email (ul_email user) (working w) = [u] ->
        checkpw (ul_password user) (User.password u) = Some false ->
        login_user user w = (Raise invalid_credentials, w)) /\
    (forall token w',
        login_user user w = (Ok token, w') ->
        exists u,
          users_with_email (ul_email user) (working w) = [u] /\
          checkpw (ul_password user) (User.password u) = Some true) /\
    (forall u,
        users_with_email (ul_email user) (working w) = [u] ->
        checkpw (ul_password user) (User.password u) = None ->
        login_user user w = (Raise ValueError, w)).
Proof.
  intros user w. split; [|split; [|split]].
  - intros Hnone. unfold login_user, users_with_email in *.
    unfold bind, query, gets. simpl. now rewrite Hnone.
  - intros u Hu Hpw. unfold login_user, users_with_email in *.
    unfold bind, query, gets. simpl. rewrite Hu. simpl. now rewrite Hpw.
  - intros token w' Hok.
    destruct (login_user_ok user w token w' Hok) as (u & _ & _ & Hu & Hpw & _).
    exists u. now split.
  - intros u Hu Hpw. unfold login_user, users_with_email in *.
    unfold bind, query, gets. simpl. rewrite Hu. simpl. now rewrite Hpw.
Qed.

(** X4. The token a login returns validates, in the state the login leaves,
    to the user that logged in; it is that user's only token, the user is
    active afterwards, and everything is committed. *)
Theorem login_token_validates :
  forall (user : UserLogin) (w w' : World) (token : string),
    login_user user w = (Ok token, w') ->
    exists u u',
      users_with_email (ul_email user) (working w) = [u] /\
      users_with_email (ul_email user) (working w') = [u'] /\
      User.id u' = User.id u /\
      User.is_active u' = true /\
      validate_token token w' = (Ok (User.id u), w') /\
      tokens_of (User.id u) (working w')
        = [AccessToken.mk token "some unknown timestamp" (User.id u)] /\
      committed w' = working w'.
Proof.
  intros user w w' token Hok.
  destruct (login_user_ok user w token w' Hok)
    as (u & u0 & w0 & Hu & _ & Hissue & _ & Hu0 & Hid & _ & Hactive).
  destruct (_create_access_token_ok _ _ _ _ Hissue) as (-> & -> & Hfree).
  exists u, u0. repeat split; try assumption.
  - rewrite validate_token_run. unfold issued_world, new_access_token. simpl.
    rewrite filter_app. fold (tokens_of_others (User.id u) (working w0)).
    rewrite Hfree. simpl. now rewrite String.eqb_refl.
  - apply tokens_of_issued.
Qed.
End Sessions.

Lemma logout_revokes_token_witness :
  exists w1,
    @validate_token "live" orphan_world = (Ok 1, orphan_world) /\
    logout_user 1 orphan_world = (Ok tt, w1) /\
    validate_token "live" w1 = (Raise invalid_token, w1) /\
    validate_token "stale" w1 = (Ok 9, w1).
Proof.
  exists (logged_out 1 orphan_world).
  split; [reflexivity|]. split; [reflexivity|].
  split; [|reflexivity].
  exact (proj2 (logout_revokes_token 1 "live" orphan_world orphan_world
                  (logged_out 1 orphan_world) eq_refl eq_refl)).
Defined.

(** ** Activation and deactivation *)

Section ActiveFlag.
Context {P : Primitives} {Sch : Schema}.

Lemma update_flag_run b user_id w :
  update_users_returning (has_id user_id) (set_is_active b) w
    = (Ok (map (set_is_active b) (user_rows user_id (working w))),
       on_working
         (with_users (map (fun r => if has_id user_id r then set_is_active b r else r))) w).
Proof.
  unfold update_users_returning, bind, query, gets. simpl.
  now rewrite update_violates_same_key by reflexivity.
Qed.

Lemma activate_user_run user_id w :
  activate_user user_id w
    = match user_rows user_id (working w) with
      | [] => (Raise user_not_found, logged_out user_id (flagged_world true user_id w))
      | [_] => (Ok tt, flagged_world true user_id w)
      | _ => (Raise MultipleResultsFound,
              on_working
                (with_users (map (fun r => if has_id user_id r
                                           then set_is_active true r else r))) w)
      end.
Proof.
  unfold activate_user. unfold bind at 1. rewrite update_flag_run.
  now destruct (user_rows user_id (working w)) as [|u [|u' l]].
Qed.

Lemma deactivate_user_run user_id w :
  deactivate_user user_id w
    = match user_rows user_id (working w) with
      | [] => (Raise user_not_found, flagged_world false user_id (logged_out user_id w))
      | [_] => (Ok tt, flagged_world false user_id (logged_out user_id w))
      | _ => (Raise MultipleResultsFound,
              on_working
                (with_users (map (fun r => if has_id user_id r
                                           then set_is_active false r else r)))
                (logged_out user_id w))
      end.
Proof.
  unfold deactivate_user. unfold bind at 1. rewrite logout_user_run.
  unfold bind at 1. rewrite update_flag_run.
  change (user_rows user_id (working (logged_out user_id w)))
    with (user_rows user_id (working w)).
  now destruct (user_rows user_id (working w)) as [|u [|u' l]].
Qed.

Lemma flagged_rows b user_id u s :
  user_rows user_id s = [u] ->
  user_rows user_id
    (with_users (map (fun r => if has_id user_id r then set_is_active b r else r)) s)
    = [set_is_active b u].
Proof.
  intros Hu. unfold user_rows in *. simpl.
  rewrite filter_update_same by reflexivity. now rewrite Hu.
Qed.

Lemma flagged_others b user_id s :
  filter (fun r => negb (has_id user_id r))
         (users (with_users (map (fun r => if has_id user_id r
                                           then set_is_active b r else r)) s))
    = filter (fun r => negb (has_id user_id r)) (users s).
Proof.
  simpl. apply filter_update_other. intros r Hr. unfold has_id in *. simpl.
  now rewrite Hr.
Qed.

(** X5. [deactivate_user] deletes the tokens of the id before it looks for
    the user: whatever the outcome, a token that validated to the id raises
    Unauthorized afterwards.  When the row exists its active flag is cleared
    and committed, every other column and every other user being kept; when
    it does not, the operation raises NotFound (the tokens are gone all the
    same). *)
Theorem deactivate_user_revokes :
  forall (user_id : UUID) (w : World),
    (forall token w0,
        validate_token token w = (Ok user_id, w0) ->
        fst (validate_token token (snd (deactivate_user user_id w)))
          = Raise invalid_token) /\
    tokens_of user_id (working (snd (deactivate_user user_id w))) = [] /\
    (user_rows user_id (working w) = [] ->
     fst (deactivate_user user_id w) = Raise user_not_found /\
     users (working (snd (deactivate_user user_id w))) = users (working w)) /\
    (forall u,
        user_rows user_id (working w) = [u] ->
        exists w',
          deactivate_user user_id w = (Ok tt, w') /\
          user_rows user_id (working w') = [set_is_active false u] /\
          filter (fun r => negb (has_id user_id r)) (users (working w'))
            = filter (fun r => negb (has_id user_id r)) (users (working w)) /\
          committed w' = working w').
Proof.
  intros user_id w.
  assert (Htokens : tokens (working (snd (deactivate_user user_id w)))
                    = tokens (working (logged_out user_id w))).
  { rewrite deactivate_user_run.
    now destruct (user_rows user_id (working w)) as [|u [|u' l]]. }
  split; [|split; [|split]].
  - intros token w0 Hvalid.
    destruct (logged_out_revokes user_id token w w0 Hvalid) as [_ Hrevoked].
    rewrite validate_token_run in *. rewrite Htokens.
    now destruct (filter _ (tokens (working (logged_out user_id w)))) as [|td [|td' l]].
  - unfold tokens_of. rewrite Htokens. apply tokens_of_logged_out.
  - intros Hnone. rewrite deactivate_user_run, Hnone. split; [reflexivity|].
    simpl. apply update_none. exact Hnone.
  - intros u Hu. rewrite deactivate_user_run, Hu. eexists. split; [reflexivity|].
    split; [|split; [|reflexivity]].
    + apply (flagged_rows false user_id u (working (logged_out user_id w))). exact Hu.
    + apply (flagged_others false user_id (working (logged_out user_id w))).
Qed.

(** X6. [activate_user] on an id without a User row deletes the tokens of
    that id and raises NotFound, the users and the tokens of other ids being
    kept.  On an id with a row it sets the flag and commits, and touches no
    token and no other user. *)
Theorem activate_user_sets_flag_or_purges :
  forall (user_id : UUID) (w : World),
    (user_rows user_id (working w) = [] ->
     exists w',
       activate_user user_id w = (Raise user_not_found, w') /\
       tokens_of user_id (working w') = [] /\
       tokens_of_others user_id (working w') = tokens_of_others user_id (working w) /\
       users (working w') = users (working w)) /\
    (forall u,
        user_rows user_id (working w) = [u] ->
        exists w',
          activate_user user_id w = (Ok tt, w') /\
          user_rows user_id (working w') = [set_is_active true u] /\
          filter (fun r => negb (has_id user_id r)) (users (working w'))
            = filter (fun r => negb (has_id user_id r)) (users (working w)) /\
          tokens (working w') = tokens (working w) /\
          committed w' = working w').
Proof.
  intros user_id w. split.
  - intros Hnone. rewrite activate_user_run, Hnone. eexists. split; [reflexivity|].
    split; [apply tokens_of_logged_out|].
    split; [now rewrite tokens_of_others_logged_out|].
    simpl. apply update_none. exact Hnone.
  - intros u Hu. rewrite activate_user_run, Hu. eexists. split; [reflexivity|].
    split; [|split; [|split; reflexivity]].
    + apply (flagged_rows true user_id u (working w)). exact Hu.
    + apply (flagged_others true user_id (working w)).
Qed.

(** X7. A login of an inactive user whose password verifies sets the active
    flag and commits it before the token is issued: the outcome of the login
    is the outcome of the issuance in that state, so the user is active
    after a successful login, and stays active when the issuance fails. *)
Theorem login_reactivates :
  forall (user : UserLogin) (u : User.t) (w : World),
    users_with_email (ul_email user) (working w) = [u] ->
    user_rows (User.id u) (working w) = [u] ->
    User.is_active u = false ->
    checkpw (ul_password user) (User.password u) = Some true ->
    login_user user w
      = _create_access_token (User.id u) (flagged_world true (User.id u) w) /\
    user_rows (User.id u) (committed (flagged_world true (User.id u) w))
      = [set_is_active true u] /\
    user_rows (User.id u) (working (snd (login_user user w))) = [set_is_active true u].
Proof.
  intros user u w Hemail Hid Hflag Hpw.
  assert (Hlogin : login_user user w
                   = _create_access_token (User.id u) (flagged_world true (User.id u) w)).
  { unfold login_user, users_with_email in *.
    cbv beta iota delta [bind query gets scalar_one_or_none ret raise].
    rewrite Hemail, Hpw, Hflag. simpl.
    now rewrite activate_user_run, Hid. }
  pose proof (flagged_rows true (User.id u) u (working w) Hid) as Hrows.
  split; [exact Hlogin|]. split; [exact Hrows|].
  rewrite Hlogin, _create_access_token_run.
  now destruct (issue_collides (User.id u) (flagged_world true (User.id u) w)).
Qed.
End ActiveFlag.

Lemma login_user_rejects_witness :
  @login_user source_stubs {| ul_email := "carol@example.com"; ul_password := "pw1" |}
     alice_hashed_world = (Raise user_not_found, alice_hashed_world) /\
  @login_user distinct_stubs {| ul_email := "alice@example.com"; ul_password := "wrong" |}
     alice_hashed_world = (Raise invalid_credentials, alice_hashed_world) /\
  @login_user source_stubs alice_login alice_world = (Raise ValueError, alice_world).
Proof.
  split; [|split].
  - exact (proj1 (@login_user_rejects source_stubs
                    {| ul_email := "carol@example.com"; ul_password := "pw1" |}
                    alice_hashed_world) eq_refl).
  - exact (proj1 (proj2 (@login_user_rejects distinct_stubs
                    {| ul_email := "alice@example.com"; ul_password := "wrong" |}
                    alice_hashed_world)) _ eq_refl eq_refl).
  - exact (proj2 (proj2 (proj2 (@login_user_rejects source_stubs alice_login alice_world)))
             alice eq_refl eq_refl).
Defined.

Lemma login_token_validates_witness :
  exists w' u,
    @login_user distinct_stubs alice_login alice_hashed_world = (Ok "token-", w') /\
    @validate_token "token-" w' = (Ok (User.id u), w') /\
    users_with_email "alice@example.com" (working alice_hashed_world) = [u].
Proof.
  pose (w' := snd (@login_user distinct_stubs alice_login alice_hashed_world)).
  assert (Hrun : @login_user distinct_stubs alice_login alice_hashed_world
                 = (Ok "token-", w')) by reflexivity.
  destruct (@login_token_validates distinct_stubs alice_login alice_hashed_world w'
              "token-" Hrun) as (u & u' & Hu & _ & _ & _ & Hvalid & _).
  exists w', u. split; [exact Hrun|]. split; [exact Hvalid | exact Hu].
Defined.

Lemma deactivate_user_revokes_witness :
  fst (validate_token "live" (snd (deactivate_user 1 orphan_world))) = Raise invalid_token /\
  fst (validate_token "stale" (snd (deactivate_user 9 orphan_world))) = Raise invalid_token /\
  fst (deactivate_user 9 orphan_world) = Raise user_not_found /\
  fst (deactivate_user 1 orphan_world) = Ok tt.
Proof.
  destruct (deactivate_user_revokes 1 orphan_world) as (Hlive & _ & _ & Hhit).
  destruct (deactivate_user_revokes 9 orphan_world) as (Hstale & _ & Hmiss & _).
  split; [exact (Hlive "live" orphan_world eq_refl)|].
  split; [exact (Hstale "stale" orphan_world eq_refl)|].
  split; [exact (proj1 (Hmiss eq_refl))|].
  destruct (Hhit alice eq_refl) as (w' & Hrun & _). now rewrite Hrun.
Defined.

Lemma activate_user_sets_flag_or_purges_witness :
  (exists w', activate_user 9 orphan_world = (Raise user_not_found, w') /\
              tokens_of 9 (working w') = []) /\
  (exists w', activate_user 1 orphan_world = (Ok tt, w') /\
              tokens (working w') = tokens (working orphan_world)).
Proof.
  destruct (activate_user_sets_flag_or_purges 9 orphan_world) as [Hmiss _].
  destruct (activate_user_sets_flag_or_purges 1 orphan_world) as [_ Hhit].
  split.
  - destruct (Hmiss eq_refl) as (w' & H1 & H2 & _). exists w'. now split.
  - destruct (Hhit alice eq_refl) as (w' & H1 & _ & _ & H2 & _). exists w'. now split.
Defined.

Lemma login_reactivates_witness :
  exists w',
    @login_user distinct_stubs alice_login dormant_world = (Ok "token-", w') /\
    user_rows 1 (working w') = [set_is_active true dormant_alice].
Proof.
  destruct (@login_reactivates distinct_stubs alice_login dormant_alice dormant_world
              eq_refl eq_refl eq_refl eq_refl) as (_ & _ & Hactive).
  exists (snd (@login_user distinct_stubs alice_login dormant_world)).
  split; [reflexivity | exact Hactive].
Defined.

(** ** Game sessions *)


Section Sessions2.
Context {P : Primitives} {Sch : Schema}.

Lemma save_game_route_run data user_id w :
  save_game_route data user_id w
    = match gp_id (sg_game_session data) with
      | None => (Ok (next_session_id (game_sessions (working w))),
                 created_world data user_id w)
      | Some sid =>
          match session_rows sid w with
          | [] => (Raise TypeError, w)
          | [g] => (Ok sid, saved_world data sid (GameSession.stories g) w)
          | _ => (Raise MultipleResultsFound, w)
          end
      end.
Proof.
  destruct (gp_id (sg_game_session data)) as [sid|] eqn:Hid.
  - destruct (session_rows sid w) as [|g [|g' l]] eqn:Hrows.
    + unfold save_game_route, session_rows in *. rewrite Hid.
      unfold bind, query, gets. simpl. now rewrite Hrows.
    + now apply save_existing_step.
    + unfold save_game_route, session_rows in *. rewrite Hid.
      unfold bind, query, gets. simpl. now rewrite Hrows.
  - unfold save_game_route. rewrite Hid. reflexivity.
Qed.

Lemma load_game_run user_id w :
  load_game user_id w
    = (Ok (map summary (filter (owned_by user_id) (game_sessions (working w)))), w).
Proof. reflexivity. Qed.

Lemma next_session_id_fresh (tbl : list GameSession.t) (g : GameSession.t) :
  In g tbl -> GameSession.id g <> next_session_id tbl.
Proof.
  intros Hin. unfold next_session_id.
  assert (Hle : GameSession.id g <= list_max (map GameSession.id tbl)).
  { pose proof (proj1 (list_max_le (map GameSession.id tbl)
                         (list_max (map GameSession.id tbl))) (Nat.le_refl _)) as Hall.
    rewrite Forall_forall in Hall. apply Hall. now apply in_map. }
  lia.
Qed.

Lemma session_rows_created data user_id w :
  session_rows (next_session_id (game_sessions (working w))) (created_world data user_id w)
    = [new_session_row data user_id w].
Proof.
  unfold session_rows, created_world. simpl. rewrite filter_app. simpl.
  unfold session_is at 2. simpl. rewrite Nat.eqb_refl.
  replace (filter _ (game_sessions (working w))) with (@nil GameSession.t); [reflexivity|].
  symmetry. destruct (filter _ (game_sessions (working w))) as [|g l] eqn:E; [reflexivity|].
  assert (Hin : In g (filter (session_is (next_session_id (game_sessions (working w))))
                             (game_sessions (working w)))) by (rewrite E; now left).
  apply filter_In in Hin as [Hin Hid]. apply Nat.eqb_eq in Hid.
  now apply next_session_id_fresh in Hin.
Qed.

(** X8. A save without an id never raises.  It adds one row at the end of
    the table, owned by the caller and carrying the payload's protagonist,
    session name, inventory, image and scenes, leaves every stored row as it
    was, and returns an id that no stored row had.  Loading the caller's
    sessions afterwards gives what it gave before followed by the new
    session; a following save with the returned id appends to exactly that
    session. *)
Theorem save_new_session_then_load :
  forall (data more : SaveGame) (user_id other : UUID) (w : World),
    gp_id (sg_game_session data) = None ->
    let sid := next_session_id (game_sessions (working w)) in
    let row := new_session_row data user_id w in
    let w1 := created_world data user_id w in
    save_game_route data user_id w = (Ok sid, w1) /\
    (forall g, In g (game_sessions (working w)) -> GameSession.id g <> sid) /\
    game_sessions (working w1) = game_sessions (working w) ++ [row] /\
    committed w1 = working w1 /\
    GameSession.id row = sid /\
    GameSession.user_id row = user_id /\
    GameSession.stories row = gp_scenes (sg_game_session data) /\
    GameSession.protagonist_name row = gp_protagonist_name (sg_game_session data) /\
    GameSession.session_name row = gp_session_name (sg_game_session data) /\
    GameSession.inventory row = gp_inventory (sg_game_session data) /\
    GameSession.last_image row = sg_image data /\
    (forall before,
        load_game user_id w = (Ok before, w) ->
        load_game user_id w1 = (Ok (before ++ [summary row]), w1)) /\
    (gp_id (sg_game_session more) = Some sid ->
     exists w2 row2,
       save_game_route more other w1 = (Ok sid, w2) /\
       session_rows sid w2 = [row2] /\
       GameSession.stories row2
         = gp_scenes (sg_game_session data) ++ gp_scenes (sg_game_session more) /\
       GameSession.user_id row2 = user_id).
Proof.
  intros data more user_id other w Hid sid row w1. subst sid row w1.
  split; [rewrite save_game_route_run, Hid; reflexivity|].
  split; [intros g; apply next_session_id_fresh|].
  repeat (split; [reflexivity|]). split.
  - intros before Hload. rewrite load_game_run in Hload. injection Hload as <-.
    rewrite load_game_run. unfold created_world. simpl.
    rewrite filter_app, map_app. simpl. unfold owned_by at 2. simpl.
    now rewrite Nat.eqb_refl.
  - intros Hmore.
    pose proof (session_rows_created data user_id w) as Hrows.
    eexists. eexists. split; [exact (save_existing_step more other _ _ _ Hmore Hrows)|].
    split; [exact (saved_world_rows more _ _ _ Hrows)|]. now split.
Qed.

(** X9. With an id in the payload [save_game_route] does not look at the
    caller: the outcome and the state it leaves are the same for every user
    id.  A save by someone who does not own the session appends to it all
    the same: the row keeps its owner, and the owner's next load shows the
    appended scenes. *)
Theorem save_existing_ignores_caller :
  forall (data : SaveGame) (caller other : UUID) (sid : nat) (w : World),
    gp_id (sg_game_session data) = Some sid ->
    save_game_route data caller w = save_game_route data other w /\
    (forall g,
        session_rows sid w = [g] ->
        exists w' g' shown,
          save_game_route data caller w = (Ok sid, w') /\
          session_rows sid w' = [g'] /\
          GameSession.user_id g' = GameSession.user_id g /\
          GameSession.stories g'
            = GameSession.stories g ++ gp_scenes (sg_game_session data) /\
          load_game (GameSession.user_id g) w' = (Ok shown, w') /\
          In (summary g') shown).
Proof.
  intros data caller other sid w Hid. split; [now rewrite !save_game_route_run, Hid|].
  intros g Hrows.
  pose proof (saved_world_rows data sid g w Hrows) as Hrows'.
  eexists. eexists. eexists.
  split; [exact (save_existing_step data caller sid g w Hid Hrows)|].
  split; [exact Hrows'|]. split; [reflexivity|]. split; [reflexivity|].
  split; [apply load_game_run|].
  apply in_map. apply filter_In. split.
  - assert (Hin : In (resave data (GameSession.stories g ++ gp_scenes (sg_game_session data))
                             (now w) g)
                     (session_rows sid (saved_world data sid (GameSession.stories g) w)))
      by (rewrite Hrows'; now left).
    unfold session_rows in Hin. now apply filter_In in Hin.
  - unfold owned_by. simpl. apply Nat.eqb_refl.
Qed.

End Sessions2.

Lemma save_new_session_then_load_witness :
  exists w1 w2 row2,
    save_game_route new_game_data 2 save_demo_world = (Ok 8, w1) /\
    load_game 2 w1
      = (Ok [summary (new_session_row new_game_data 2 save_demo_world)], w1) /\
    save_game_route (append_data 8 ["s3"]) 1 w1 = (Ok 8, w2) /\
    session_rows 8 w2 = [row2] /\
    GameSession.stories row2 = ["s1"; "s2"; "s3"] /\
    GameSession.user_id row2 = 2.
Proof.
  destruct (save_new_session_then_load new_game_data (append_data 8 ["s3"]) 2 1
              save_demo_world eq_refl)
    as (Hsave & _ & _ & _ & _ & _ & _ & _ & _ & _ & _ & Hload & Hmore).
  destruct (Hmore eq_refl) as (w2 & row2 & Hsave2 & Hrows2 & Hstories & Howner).
  exists (created_world new_game_data 2 save_demo_world), w2, row2.
  split; [exact Hsave|]. split; [exact (Hload [] eq_refl)|].
  split; [exact Hsave2|]. split; [exact Hrows2|]. split; [exact Hstories | exact Howner].
Defined.

Lemma save_existing_ignores_caller_witness :
  save_game_route (save_demo_data ["y"]) 1 save_demo_world
    = save_game_route (save_demo_data ["y"]) 42 save_demo_world /\
  exists w' g',
    save_game_route (save_demo_data ["y"]) 42 save_demo_world = (Ok 7, w') /\
    session_rows 7 w' = [g'] /\
    GameSession.user_id g' = 1 /\
    GameSession.stories g' = ["x"; "y"].
Proof.
  destruct (save_existing_ignores_caller (save_demo_data ["y"]) 42 1 7 save_demo_world
              eq_refl) as [Hsame Hforeign].
  split; [now rewrite Hsame|].
  destruct (Hforeign (GameSession.mk 7 1 "img7" "Bob" "second" [] ["x"] 0) eq_refl)
    as (w' & g' & shown & H1 & H2 & H3 & H4 & _).
  exists w', g'. repeat split; assumption.
Defined.


(** ** What no operation does *)

Lemma add_token_keeps {P : Primitives} (Q : Store -> Prop) (row : AccessToken.t) :
  (forall f s, Q s -> Q (with_tokens f s)) ->
  preserves (both Q) (add_token_and_commit row).
Proof.
  intros Hq w [Hw Hc]. unfold add_token_and_commit, bind, query, gets. simpl.
  destruct (token_insert_violates row (tokens (working w))); simpl.
  - split; exact Hc.
  - split; now apply Hq.
Qed.

Section Frame.
Context {P : Primitives} {Sch : Schema}.
Variable Q : Store -> Prop.
Hypothesis Q_users : forall f s, Q s -> Q (with_users f s).
Hypothesis Q_delete_tokens : forall p s, Q s -> Q (with_tokens (filter p) s).
Hypothesis Q_add_token : forall row, preserves (both Q) (add_token_and_commit row).
Hypothesis Q_email_tokens : forall f s, Q s -> Q (with_email_tokens f s).
Hypothesis Q_save : forall data user_id, preserves (both Q) (save_game_route data user_id).

Lemma frame_commit : preserves (both Q) commit.
Proof. apply preserves_modify. intros w [Hw _]. split; exact Hw. Qed.

Lemma frame_rollback : preserves (both Q) rollback.
Proof. apply preserves_modify. intros w [_ Hc]. split; exact Hc. Qed.

Lemma frame_draw : preserves (both Q) draw.
Proof. intros w Hw. exact Hw. Qed.

Lemma frame_execute (f : Store -> Store) :
  (forall s, Q s -> Q (f s)) -> preserves (both Q) (execute f).
Proof.
  intros Hf. apply preserves_modify. intros w [Hw Hc]. split; [now apply Hf | exact Hc].
Qed.

Ltac frame_step :=
  match goal with
  | |- preserves _ (bind _ _) => apply preserves_bind; [|intros ?]
  | |- preserves _ (ret _) => apply preserves_ret
  | |- preserves _ (raise _) => apply preserves_raise
  | |- preserves _ (query _) => apply preserves_query
  | |- preserves _ clock => apply preserves_clock
  | |- preserves _ draw => apply frame_draw
  | |- preserves _ commit => apply frame_commit
  | |- preserves _ rollback => apply frame_rollback
  | |- preserves _ (scalar_one_or_none _) => apply preserves_scalar_one_or_none
  | |- preserves _ (scalar_one _) => apply preserves_scalar_one
  | |- preserves _ (try_except_IntegrityError _ _) => apply preserves_try
  | |- preserves _ (execute (with_users _)) => apply frame_execute; intros; now apply Q_users
  | |- preserves _ (execute (with_tokens (filter _))) =>
      apply frame_execute; intros; now apply Q_delete_tokens
  | |- preserves _ (add_token_and_commit _) => apply Q_add_token
  | |- preserves _ (execute (with_email_tokens _)) =>
      apply frame_execute; intros; now apply Q_email_tokens
  | |- preserves _ (if ?b then _ else _) => destruct b
  | |- preserves _ (match ?x with _ => _ end) => destruct x
  | |- preserves _ _ =>
      progress unfold ignore, logout_user, _create_access_token,
        validate_token, update_users_returning, activate_user, deactivate_user,
        login_user, update_user, update_users_values, _delete_email_tokens, delete_users,
        hard_delete_user,
        _check_existing_user, _post_email_token, create_email_token,
        _validate_email_token, update_email_token, reset_password, add_user_and_commit,
        get_start_story, load_game, get_user_profile
  end.

Lemma frame_create_user_attempts attempts pending_rollback user_data :
  preserves (both Q) (create_user_attempts attempts pending_rollback user_data).
Proof.
  revert pending_rollback.
  induction attempts as [|attempt rest IH]; intros pending_rollback; simpl;
    [apply preserves_raise|].
  apply preserves_try; [repeat frame_step|].
  destruct (Nat.eqb attempt 2); [apply preserves_raise | apply IH].
Qed.

Lemma frame_create_user token : preserves (both Q) (create_user token).
Proof.
  unfold create_user.
  apply preserves_bind; [repeat frame_step | intros user_data].
  apply preserves_bind; [apply frame_create_user_attempts | intros db_user].
  repeat frame_step.
Qed.

Lemma frame_run (op : Operation) : preserves (both Q) (run op).
Proof.
  destruct op; simpl;
    try (unfold ignore; apply preserves_bind;
         [first [apply frame_create_user | apply Q_save] | intros ?; apply preserves_ret]);
    repeat frame_step.
Qed.

Lemma frame_run_all (ops : list Operation) (w : World) :
  both Q w -> both Q (run_all ops w).
Proof.
  revert w. induction ops as [|op ops IH]; intros w Hw; simpl; [exact Hw|].
  apply IH. now apply frame_run.
Qed.
End Frame.

Lemma extends_scenes_refl (g : GameSession.t) : extends_scenes g g.
Proof. repeat split. exists []. now rewrite app_nil_r. Qed.

Lemma extends_scenes_trans (a b c : GameSession.t) :
  extends_scenes a b -> extends_scenes b c -> extends_scenes a c.
Proof.
  intros (Hi & Hu & Hp & x & Hx) (Hi' & Hu' & Hp' & y & Hy).
  repeat split; try congruence.
  exists (x ++ y). now rewrite Hy, Hx, app_assoc.
Qed.

Lemma sessions_grow_refl (l : list GameSession.t) : sessions_grow l l.
Proof.
  exists l, []. split; [now rewrite app_nil_r|].
  induction l; constructor; [apply extends_scenes_refl | assumption].
Qed.

Lemma sessions_grow_app (a l : list GameSession.t) (r : GameSession.t) :
  sessions_grow a l -> sessions_grow a (l ++ [r]).
Proof.
  intros (kept & added & -> & Hk). exists kept, (added ++ [r]).
  split; [now rewrite app_assoc | assumption].
Qed.

Lemma sessions_grow_map (a l : list GameSession.t) (h : GameSession.t -> GameSession.t) :
  (forall g, In g l -> extends_scenes g (h g)) ->
  sessions_grow a l -> sessions_grow a (map h l).
Proof.
  intros Hh (kept & added & -> & Hk). exists (map h kept), (map h added).
  split; [apply map_app|].
  assert (Hin : forall g, In g kept -> extends_scenes g (h g))
    by (intros g Hg; apply Hh, in_or_app; now left).
  clear Hh. induction Hk as [|x y xs ys Hxy Hk IH]; simpl; constructor.
  - eapply extends_scenes_trans; [exact Hxy | apply Hin; now left].
  - apply IH. intros g Hg. apply Hin. now right.
Qed.

Section AppendOnly.
Context {P : Primitives} {Sch : Schema}.

Lemma save_keeps_sessions_growing (before : list GameSession.t) data user_id :
  preserves (both (fun s => sessions_grow before (game_sessions s)))
            (save_game_route data user_id).
Proof.
  intros w [Hw Hc]. rewrite save_game_route_run.
  destruct (gp_id (sg_game_session data)) as [sid|].
  - destruct (session_rows sid w) as [|g [|g' l]] eqn:Hrows; simpl; try (now split).
    assert (Hgrow : sessions_grow before
                      (map (fun r => if session_is sid r
                                     then resave data (GameSession.stories g
                                                       ++ gp_scenes (sg_game_session data))
                                                 (now w) r
                                     else r) (game_sessions (working w)))).
    { apply sessions_grow_map; [|exact Hw].
      intros r Hin. destruct (session_is sid r) eqn:Hr; [|apply extends_scenes_refl].
      assert (Hrg : In r (session_rows sid w))
        by (unfold session_rows; apply filter_In; now split).
      rewrite Hrows in Hrg. destruct Hrg as [<-|[]].
      repeat split. now exists (gp_scenes (sg_game_session data)). }
    now split.
  - simpl. split; now apply sessions_grow_app.
Qed.

Lemma save_keeps_starting_stories (stories : list StartingStory.t) data user_id :
  preserves (both (fun s => starting_stories s = stories)) (save_game_route data user_id).
Proof.
  intros w [Hw Hc]. rewrite save_game_route_run.
  destruct (gp_id (sg_game_session data)) as [sid|].
  - destruct (session_rows sid w) as [|g [|g' l]]; simpl; now split.
  - simpl. now split.
Qed.

(** X11. Scenes are append-only under every operation.  Started on a
    session with no open transaction, any sequence of requests, whatever
    each one returns or raises, leaves every game session that was stored in
    the table, in its place, with its id, owner and protagonist, and with the
    scenes it had as a prefix of the scenes it has; rows are only added at
    the end.  No statement of any operation deletes a session or removes a
    scene, and none changes the starting stories. *)
Theorem sessions_are_append_only :
  forall (ops : list Operation) (w : World),
    committed w = working w ->
    sessions_grow (game_sessions (working w)) (game_sessions (working (run_all ops w))) /\
    sessions_grow (game_sessions (working w)) (game_sessions (committed (run_all ops w))) /\
    starting_stories (working (run_all ops w)) = starting_stories (working w) /\
    starting_stories (committed (run_all ops w)) = starting_stories (working w).
Proof.
  intros ops w Hclean.
  pose proof (frame_run_all
                (fun s => sessions_grow (game_sessions (working w)) (game_sessions s))
                (fun _ _ H => H) (fun _ _ H => H)
                (fun row => add_token_keeps
                              (fun s => sessions_grow (game_sessions (working w))
                                                      (game_sessions s))
                              row (fun _ _ H => H))
                (fun _ _ H => H)
                (save_keeps_sessions_growing (game_sessions (working w))) ops w) as Hgrow.
  pose proof (frame_run_all
                (fun s => starting_stories s = starting_stories (working w))
                (fun _ _ H => H) (fun _ _ H => H)
                (fun row => add_token_keeps
                              (fun s => starting_stories s = starting_stories (working w))
                              row (fun _ _ H => H))
                (fun _ _ H => H)
                (save_keeps_starting_stories (starting_stories (working w))) ops w)
    as Hstories.
  destruct Hgrow as [G1 G2];
    [split; [|rewrite Hclean]; apply sessions_grow_refl|].
  destruct Hstories as [S1 S2]; [split; [|rewrite Hclean]; reflexivity|].
  repeat split; assumption.
Qed.
End AppendOnly.

Lemma sessions_are_append_only_witness :
  sessions_grow
    (game_sessions (working save_demo_world))
    (game_sessions
       (working
          (@run_all source_stubs one_token_per_email
             [SaveGameRoute (save_demo_data ["y"]) 2;
              HardDeleteUser 1;
              SaveGameRoute new_game_data 1;
              SaveGameRoute (save_demo_data ["z"]) 1]
             save_demo_world))).
Proof.
  exact (proj1 (@sessions_are_append_only source_stubs one_token_per_email
                  [SaveGameRoute (save_demo_data ["y"]) 2;
                   HardDeleteUser 1;
                   SaveGameRoute new_game_data 1;
                   SaveGameRoute (save_demo_data ["z"]) 1]
                  save_demo_world eq_refl)).
Defined.

(** ** The email pattern *)

Lemma string_app_nil_r (s : string) : s +++ "" = s.
Proof. induction s as [|c s IH]; simpl; [reflexivity | now rewrite IH]. Qed.

Lemma string_app_assoc (s t u : string) : (s +++ t) +++ u = s +++ t +++ u.
Proof. induction s as [|c s IH]; simpl; [reflexivity | now rewrite IH]. Qed.

Lemma string_app_empty (s t : string) : s +++ t = "" -> s = "" /\ t = "".
Proof. destruct s; simpl; [now split | discriminate]. Qed.

Lemma string_app_cons (s t : string) (c : ascii) (u : string) :
  s +++ t = String c u ->
  (s = "" /\ t = String c u) \/ (exists s', s = String c s' /\ u = s' +++ t).
Proof.
  destruct s as [|c' s']; simpl; intros H; [now left|].
  injection H as -> <-. right. now exists s'.
Qed.

Lemma nullable_lang (r : Re.re) : Re.nullable r = true <-> lang r "".
Proof.
  split.
  - induction r; simpl; intros H; try discriminate.
    + constructor.
    + apply andb_true_iff in H as [Ha Hb].
      change "" with ("" +++ ""). constructor; auto.
    + apply orb_true_iff in H as [Ha | Hb]; [apply lang_alt_l | apply lang_alt_r]; auto.
    + constructor.
  - intros H. remember "" as s eqn:Hs. induction H; simpl; try reflexivity.
    + discriminate.
    + apply string_app_empty in Hs as [-> ->]. now rewrite IHlang1, IHlang2.
    + now rewrite IHlang.
    + rewrite IHlang; [apply orb_true_r | assumption].
Qed.

Lemma lang_star_cons_inv (a : Re.re) (c : ascii) (s : string) :
  lang (Re.Star a) (String c s) ->
  exists s1 s2, s = s1 +++ s2 /\ lang a (String c s1) /\ lang (Re.Star a) s2.
Proof.
  intros H. remember (Re.Star a) as r eqn:Hr. remember (String c s) as u eqn:Hu.
  revert s Hu. induction H; intros s0 Hu; try discriminate.
  injection Hr as ->.
  apply string_app_cons in Hu as [[-> ->] | (s' & -> & ->)].
  - now apply IHlang2.
  - now exists s', t.
Qed.

Lemma deriv_lang (c : ascii) (r : Re.re) (s : string) :
  lang (Re.deriv c r) s <-> lang r (String c s).
Proof.
  revert s. induction r as [| |p|a IHa b IHb|a IHa b IHb|a IHa]; intros s; simpl.
  - split; intros H; inversion H.
  - split; intros H; inversion H.
  - destruct (p c) eqn:Hp; split; intros H; inversion H; subst.
    + now constructor.
    + constructor.
    + congruence.
  - split.
    + intros H.
      assert (Hcat : lang (Re.Cat (Re.deriv c a) b) s -> lang (Re.Cat a b) (String c s)).
      { intros Hc. inversion Hc; subst.
        change (String c (s0 +++ t)) with (String c s0 +++ t).
        constructor; [now apply IHa | assumption]. }
      destruct (Re.nullable a) eqn:Hn; [|now apply Hcat].
      inversion H; subst; [now apply Hcat|].
      change (String c s) with ("" +++ String c s).
      constructor; [now apply nullable_lang | now apply IHb].
    + intros H. inversion H as [| |a' b' s1 s2 H1 H2| | | |]; subst.
      match goal with
      | Heq : _ +++ _ = String _ _ |- _ =>
          apply string_app_cons in Heq as [[-> ->] | (s' & -> & ->)]
      end.
      * apply nullable_lang in H1. rewrite H1. apply lang_alt_r. now apply IHb.
      * assert (Hc : lang (Re.Cat (Re.deriv c a) b) (s' +++ s2))
          by (constructor; [now apply IHa | assumption]).
        destruct (Re.nullable a); [now apply lang_alt_l | exact Hc].
  - split; intros H; inversion H; subst.
    + apply lang_alt_l. now apply IHa.
    + apply lang_alt_r. now apply IHb.
    + apply lang_alt_l. now apply IHa.
    + apply lang_alt_r. now apply IHb.
  - split.
    + intros H. inversion H; subst.
      change (String c (s0 +++ t)) with (String c s0 +++ t).
      constructor; [now apply IHa | assumption].
    + intros H. apply lang_star_cons_inv in H as (s1 & s2 & -> & H1 & H2).
      constructor; [now apply IHa | assumption].
Qed.

Lemma fullmatch_lang (r : Re.re) (s : string) : Re.fullmatch r s = true <-> lang r s.
Proof.
  revert r. induction s as [|c s IH]; intros r; simpl.
  - apply nullable_lang.
  - rewrite IH. apply deriv_lang.
Qed.

Lemma lang_cat_inv (a b : Re.re) (s : string) :
  lang (Re.Cat a b) s <-> exists s1 s2, s = s1 +++ s2 /\ lang a s1 /\ lang b s2.
Proof.
  split.
  - intros H. inversion H; subst. now exists s0, t.
  - intros (s1 & s2 & -> & H1 & H2). now constructor.
Qed.

Lemma lang_cls_inv (p : ascii -> bool) (s : string) :
  lang (Re.Cls p) s <-> exists c, s = String c "" /\ p c = true.
Proof.
  split.
  - intros H. inversion H; subst. now exists c.
  - intros (c & -> & Hc). now constructor.
Qed.

Lemma lang_chr (c : ascii) (s : string) : lang (Re.Chr c) s <-> s = String c "".
Proof.
  unfold Re.Chr. rewrite lang_cls_inv. split.
  - intros (c' & -> & Hc). apply Ascii.eqb_eq in Hc. now subst.
  - intros ->. exists c. split; [reflexivity | apply Ascii.eqb_refl].
Qed.

Lemma lang_star_cls (p : ascii -> bool) (s : string) :
  lang (Re.Star (Re.Cls p)) s <-> all_chars p s = true.
Proof.
  split.
  - intros H. remember (Re.Star (Re.Cls p)) as r eqn:Hr.
    induction H; try discriminate; [reflexivity|].
    injection Hr as ->. apply lang_cls_inv in H as (c & -> & Hc). simpl.
    rewrite Hc. now apply IHlang2.
  - induction s as [|c s IH]; simpl; intros H; [constructor|].
    apply andb_true_iff in H as [Hc Hs].
    change (String c s) with (String c "" +++ s).
    constructor; [now constructor | now apply IH].
Qed.

Lemma lang_plus_cls (p : ascii -> bool) (s : string) :
  lang (Re.Plus (Re.Cls p)) s <-> s <> "" /\ all_chars p s = true.
Proof.
  unfold Re.Plus. rewrite lang_cat_inv. split.
  - intros (s1 & s2 & -> & H1 & H2).
    apply lang_cls_inv in H1 as (c & -> & Hc). apply lang_star_cls in H2.
    simpl. rewrite Hc, H2. now split.
  - intros [Hne Hall]. destruct s as [|c s]; [contradiction|]. simpl in Hall.
    apply andb_true_iff in Hall as [Hc Hs].
    exists (String c ""), s. repeat split.
    + now apply lang_cls_inv; exists c.
    + now apply lang_star_cls.
Qed.

Lemma lang_dollar (s : string) :
  lang Re.dollar s <-> s = "" \/ s = String "010"%char "".
Proof.
  unfold Re.dollar. split.
  - intros H. inversion H; subst.
    + left. match goal with H' : lang Re.Eps _ |- _ => now inversion H' end.
    + right. now apply lang_chr.
  - intros [-> | ->]; [apply lang_alt_l; constructor | apply lang_alt_r; now apply lang_chr].
Qed.

Lemma lang_tld (s : string) :
  lang (Re.Cat (Re.Cls Re.alpha) (Re.Cat (Re.Cls Re.alpha) (Re.Star (Re.Cls Re.alpha)))) s
  <-> 2 <= String.length s /\ all_chars Re.alpha s = true.
Proof.
  rewrite lang_cat_inv. split.
  - intros (s1 & s2 & -> & H1 & H2).
    apply lang_cls_inv in H1 as (c1 & -> & Hc1).
    apply lang_cat_inv in H2 as (s3 & s4 & -> & H3 & H4).
    apply lang_cls_inv in H3 as (c2 & -> & Hc2). apply lang_star_cls in H4.
    simpl. rewrite Hc1, Hc2, H4. split; [lia | reflexivity].
  - intros [Hlen Hall]. destruct s as [|c1 [|c2 s]]; simpl in Hlen; try lia.
    simpl in Hall. apply andb_true_iff in Hall as [Hc1 Hall].
    apply andb_true_iff in Hall as [Hc2 Hs].
    exists (String c1 ""), (String c2 s). repeat split.
    + now apply lang_cls_inv; exists c1.
    + apply lang_cat_inv. exists (String c2 ""), s. repeat split.
      * now apply lang_cls_inv; exists c2.
      * now apply lang_star_cls.
Qed.

Lemma all_chars_app (p : ascii -> bool) (s t : string) :
  all_chars p (s +++ t) = all_chars p s && all_chars p t.
Proof.
  induction s as [|c s IH]; simpl; [reflexivity|]. now rewrite IH, andb_assoc.
Qed.

Lemma count_char_app (c : ascii) (s t : string) :
  count_char c (s +++ t) = count_char c s + count_char c t.
Proof. induction s as [|c' s IH]; simpl; [reflexivity|]. rewrite IH. lia. Qed.

Lemma count_char_outside (p : ascii -> bool) (s : string) (c : ascii) :
  all_chars p s = true -> p c = false -> count_char c s = 0.
Proof.
  intros Hall Hc. induction s as [|c' s IH]; simpl in *; [reflexivity|].
  apply andb_true_iff in Hall as [Hc' Hs]. rewrite (IH Hs).
  destruct (Ascii.eqb c' c) eqn:E; [|reflexivity].
  apply Ascii.eqb_eq in E. congruence.
Qed.

(** X12. [_validate_email] accepts exactly the addresses of the shape
    local@domain.tld: a non-empty local part of letters, digits and
    [._%+-], one at sign, a non-empty domain of letters, digits, dots and
    hyphens, a dot, and at least two letters up to the end, where the end
    may be followed by one newline (Python's [$]).  What it accepts holds
    exactly one at sign and no blank, and [create_email_token] turns every other address
    down with InvalidInput before it reads or writes the store. *)
Theorem _validate_email_accepts_shape :
  forall (email : string),
    (_validate_email email = true <-> email_shape email) /\
    (_validate_email email = true ->
     count_char "@"%char email = 1 /\
     count_char " "%char email = 0) /\
    (forall (P : Primitives) (Sch : Schema) (password : string) (w : World),
        ~ email_shape email ->
        create_email_token {| uc_email := email; uc_password := password |} w
          = (Raise invalid_email_format, w)).
Proof.
  intros email.
  assert (Hshape : _validate_email email = true <-> email_shape email).
  { unfold _validate_email, Re.match_anchored, email_pattern, email_shape.
    rewrite fullmatch_lang, lang_cat_inv. split.
    - intros (body & nl & -> & Hbody & Hnl).
      apply lang_cat_inv in Hbody as (local & r1 & -> & Hlocal & Hbody).
      apply lang_cat_inv in Hbody as (at_ & r2 & -> & Hat & Hbody).
      apply lang_cat_inv in Hbody as (dom & r3 & -> & Hdom & Hbody).
      apply lang_cat_inv in Hbody as (dot & tld & -> & Hdot & Htld).
      apply lang_chr in Hat as ->. apply lang_chr in Hdot as ->.
      apply lang_plus_cls in Hlocal as [Hl1 Hl2].
      apply lang_plus_cls in Hdom as [Hd1 Hd2].
      apply lang_tld in Htld as [Ht1 Ht2]. apply lang_dollar in Hnl.
      exists local, dom, tld, nl. repeat split; try assumption.
      now rewrite !string_app_assoc.
    - intros (local & dom & tld & nl & -> & Hl1 & Hl2 & Hd1 & Hd2 & Ht1 & Ht2 & Hnl).
      exists (local +++ "@" +++ dom +++ "." +++ tld), nl.
      split; [now rewrite !string_app_assoc|]. split; [|now apply lang_dollar].
      constructor; [now apply lang_plus_cls|].
      constructor; [now apply lang_chr|].
      constructor; [now apply lang_plus_cls|].
      constructor; [now apply lang_chr|]. now apply lang_tld. }
  split; [exact Hshape|]. split.
  - intros Hvalid. apply Hshape in Hvalid
      as (local & dom & tld & nl & -> & _ & Hl & _ & Hd & _ & Ht & Hnl).
    rewrite !count_char_app.
    rewrite !(count_char_outside local_part_char local) by (assumption || reflexivity).
    rewrite !(count_char_outside domain_char dom) by (assumption || reflexivity).
    rewrite !(count_char_outside Re.alpha tld) by (assumption || reflexivity).
    destruct Hnl as [-> | ->]; split; reflexivity.
  - intros P Sch password w Hbad. unfold create_email_token. simpl.
    destruct (_validate_email email) eqn:Hv; [|reflexivity].
    exfalso. apply Hbad. now apply Hshape.
Qed.

(** ** Password reset *)

Section Reset.
Context {P : Primitives} {Sch : Schema}.

Lemma update_email_token_run email w :
  update_email_token email w
    = match email_tokens_for email (working w) with
      | [] => (Raise email_not_registered, w)
      | [_] => if rotation_collides email w
               then (Raise IntegrityError, do_draw w)
               else (Ok (generate_token (entropy w)), rotated_world email w)
      | _ => (Raise MultipleResultsFound, w)
      end.
Proof.
  unfold update_email_token, email_tokens_for, rotation_collides, rotated_world.
  cbv beta iota delta [bind query gets scalar_one_or_none ret raise draw clock].
  destruct (filter (for_email email) (email_tokens (working w))) as [|r [|r' l]];
    try reflexivity.
  simpl. destruct (update_violates _ _ _ _); reflexivity.
Qed.

Lemma filter_update_select {A} (p q : A -> bool) (f : A -> A) (l : list A) :
  (forall x, In x l -> p x = true -> q (f x) = true) ->
  (forall x, In x l -> p x = false -> q x = false) ->
  filter q (map (fun x => if p x then f x else x) l) = map f (filter p l).
Proof.
  induction l as [|x l IH]; intros Hin Hout; simpl; [reflexivity|].
  rewrite IH;
    [| intros y Hy; apply Hin; now right | intros y Hy; apply Hout; now right].
  destruct (p x) eqn:E.
  - now rewrite (Hin x (or_introl eq_refl) E).
  - now rewrite (Hout x (or_introl eq_refl) E).
Qed.

Lemma singleton_of_short {A} (l : list A) (x : A) :
  In x l -> length l <= 1 -> l = [x].
Proof.
  destruct l as [|a [|b l]]; simpl; intros Hin Hlen.
  - contradiction.
  - now destruct Hin as [-> | []].
  - lia.
Qed.

(** X13. [update_email_token] decides "registered" on the EmailTokens
    alone: it raises NotFound, leaving the store as it was, exactly when no
    EmailToken carries the email, whether or not a User has it.  When one
    row does, its token being its own, and the store accepts the new string,
    that row keeps its email and hash, takes the new token and the current
    time, and is committed; the new token then selects it, the old one
    selects nothing (if the two differ), and no user, access token or other
    EmailToken is touched. *)
Theorem update_email_token_rotates :
  forall (email : string) (w : World),
    (fst (update_email_token email w) = Raise email_not_registered
       <-> email_tokens_for email (working w) = []) /\
    (email_tokens_for email (working w) = [] ->
     update_email_token email w = (Raise email_not_registered, w)) /\
    (forall r,
        email_tokens_for email (working w) = [r] ->
        email_token_rows (EmailToken.token r) (working w) = [r] ->
        rotation_collides email w = false ->
        exists token w',
          update_email_token email w = (Ok token, w') /\
          token = generate_token (entropy w) /\
          email_tokens_for email (working w')
            = [EmailToken.mk (EmailToken.email r) (EmailToken.password r) token (now w)] /\
          email_token_rows token (working w')
            = [EmailToken.mk (EmailToken.email r) (EmailToken.password r) token (now w)] /\
          (EmailToken.token r <> token ->
           email_token_rows (EmailToken.token r) (working w') = []) /\
          filter (fun t => negb (for_email email t)) (email_tokens (working w'))
            = filter (fun t => negb (for_email email t)) (email_tokens (working w)) /\
          users (working w') = users (working w) /\
          tokens (working w') = tokens (working w) /\
          committed w' = working w').
Proof.
  intros email w. rewrite update_email_token_run. split; [|split].
  - destruct (email_tokens_for email (working w)) as [|r [|r' l]]; simpl.
    + now split.
    + destruct (rotation_collides email w); simpl; split; intros H; discriminate.
    + split; intros H; discriminate.
  - now intros ->.
  - intros r Hr Hown Hfree. rewrite Hr, Hfree.
    exists (generate_token (entropy w)), (rotated_world email w).
    split; [reflexivity|]. split; [reflexivity|].
    set (new := generate_token (entropy w)) in *.
    assert (Hin : In r (email_tokens (working w))).
    { assert (H : In r (email_tokens_for email (working w))) by (rewrite Hr; now left).
      unfold email_tokens_for in H. now apply filter_In in H. }
    assert (Hunique : forall x, In x (email_tokens (working w)) ->
                                for_email email x = true -> x = r).
    { intros x Hx Hp.
      assert (H : In x (email_tokens_for email (working w)))
        by (unfold email_tokens_for; apply filter_In; now split).
      rewrite Hr in H. now destruct H as [<- | []]. }
    assert (Hmine : email_tokens_for email (working (rotated_world email w))
                    = [retoken new (now w) r]).
    { unfold email_tokens_for, rotated_world in *. simpl.
      rewrite filter_update_same by reflexivity. now rewrite Hr. }
    assert (Hothers : filter (fun t => negb (for_email email t))
                             (email_tokens (working (rotated_world email w)))
                      = filter (fun t => negb (for_email email t))
                               (email_tokens (working w))).
    { unfold rotated_world. simpl. apply filter_update_other. intros x Hx.
      unfold for_email in *. simpl. now rewrite Hx. }
    split; [exact Hmine|].
    split; [|split; [|split; [exact Hothers | now repeat split]]].
    + destruct (String.eqb (EmailToken.token r) new) eqn:Hsame.
      * apply String.eqb_eq in Hsame.
        unfold email_token_rows, rotated_world. simpl. fold new.
        rewrite filter_update_select.
        -- unfold email_tokens_for in Hr. now rewrite Hr.
        -- intros x _ _. unfold has_token. simpl. apply String.eqb_refl.
        -- intros x Hx Hp. destruct (has_token new x) eqn:Hq; [|reflexivity].
           assert (H : In x (email_token_rows (EmailToken.token r) (working w))).
           { unfold email_token_rows. apply filter_In. split; [exact Hx|].
             now rewrite Hsame. }
           rewrite Hown in H. destruct H as [<- | []].
           assert (for_email email r = true) by
             (assert (H : In r (email_tokens_for email (working w))) by (rewrite Hr; now left);
              unfold email_tokens_for in H; now apply filter_In in H).
           congruence.
      * apply singleton_of_short.
        -- unfold email_token_rows, rotated_world. simpl. fold new. apply filter_In. split.
           ++ apply in_map_iff. exists r. split; [|exact Hin].
              assert (Hp : for_email email r = true).
              { assert (H : In r (email_tokens_for email (working w))) by (rewrite Hr; now left).
                unfold email_tokens_for in H. now apply filter_In in H. }
              now rewrite Hp.
           ++ unfold has_token. simpl. apply String.eqb_refl.
        -- unfold rotation_collides, update_violates in Hfree. fold new in Hfree.
           assert (Hr' : for_email email r = true).
           { assert (H : In r (email_tokens_for email (working w))) by (rewrite Hr; now left).
             unfold email_tokens_for in H. now apply filter_In in H. }
           assert (Hcheck := Hfree).
           rewrite <- not_true_iff_false in Hcheck.
           destruct (Nat.ltb 1 (occurrences EmailToken.token new
                       (map (fun x => if for_email email x
                                      then retoken new (now w) x else x)
                            (email_tokens (working w))))) eqn:Hocc.
           ++ exfalso. apply Hcheck. apply existsb_exists. exists r. split; [exact Hin|].
              simpl. rewrite Hr'. simpl. rewrite String.eqb_sym, Hsame. simpl. exact Hocc.
           ++ apply Nat.ltb_ge in Hocc. exact Hocc.
    + intros Hneq. unfold email_token_rows, rotated_world. simpl. fold new.
      destruct (filter (has_token (EmailToken.token r))
                  (map (fun x => if for_email email x then retoken new (now w) x else x)
                       (email_tokens (working w)))) as [|y l] eqn:E; [reflexivity|].
      exfalso.
      assert (Hy : In y (filter (has_token (EmailToken.token r))
                  (map (fun x => if for_email email x then retoken new (now w) x else x)
                       (email_tokens (working w))))) by (rewrite E; now left).
      apply filter_In in Hy as [Hy Hq]. apply in_map_iff in Hy as (x & Hxy & Hx).
      destruct (for_email email x) eqn:Hp.
      * subst y. unfold has_token in Hq. simpl in Hq. apply String.eqb_eq in Hq.
        now apply Hneq.
      * subst y.
        assert (H : In x (email_token_rows (EmailToken.token r) (working w)))
          by (unfold email_token_rows; apply filter_In; now split).
        rewrite Hown in H. destruct H as [<- | []].
        assert (for_email email r = true) by
          (assert (H : In r (email_tokens_for email (working w))) by (rewrite Hr; now left);
           unfold email_tokens_for in H; now apply filter_In in H).
        congruence.
Qed.
Lemma _validate_email_token_missing token w :
  email_token_rows token (working w) = [] ->
  _validate_email_token token w = (Raise token_not_found, w).
Proof.
  intros Hnone. unfold _validate_email_token, email_token_rows in *.
  unfold bind, query, gets. simpl. now rewrite Hnone.
Qed.

(** X14. [reset_password] never returns and never writes a password: for
    every token, password and state it raises, and the users and the access
    tokens are as before.  When the token is found the exception is "Token
    expired" and the EmailTokens of its email are deleted, so that a second
    attempt with the same token raises NotFound. *)
Theorem reset_password_never_succeeds :
  forall (token password : string) (w : World),
    (exists e w',
        reset_password token password w = (Raise e, w') /\
        users (working w') = users (working w) /\
        tokens (working w') = tokens (working w)) /\
    (forall r,
        email_token_rows token (working w) = [r] ->
        exists w',
          reset_password token password w = (Raise token_expired, w') /\
          email_tokens_for (EmailToken.email r) (working w') = [] /\
          reset_password token password w' = (Raise token_not_found, w')).
Proof.
  intros token password w. split.
  - destruct (_validate_email_token_never_returns token w) as (e & w' & Hv & Hu & Ht).
    exists e, w'. unfold reset_password, bind. rewrite Hv. now repeat split.
  - intros r Hr. exists (email_tokens_purged (EmailToken.email r) w).
    assert (Hgone : email_token_rows token
                      (working (email_tokens_purged (EmailToken.email r) w)) = []).
    { unfold email_token_rows, email_tokens_purged in *. simpl.
      apply (filter_after_delete _ (for_email (EmailToken.email r)) _ r Hr).
      apply String.eqb_refl. }
    split; [|split].
    + unfold reset_password, bind. now rewrite (_validate_email_token_found token r w Hr).
    + apply email_tokens_purged_no_rows.
    + unfold reset_password, bind.
      now rewrite (_validate_email_token_missing token _ Hgone).
Qed.

(** X15. An email that a User has and no EmailToken carries can get no new
    link: the reset request raises NotFound ("Email not registered") and a
    registration raises InvalidInput or AlreadyExists, both leaving the
    store as it was.  This is the state every confirmation attempt with a
    found token leaves for the token's email. *)
Theorem registered_email_gets_no_link :
  forall (email : string) (u : User.t) (w : World),
    users_with_email email (working w) = [u] ->
    email_tokens_for email (working w) = [] ->
    update_email_token email w = (Raise email_not_registered, w) /\
    (forall password,
        create_email_token {| uc_email := email; uc_password := password |} w
          = (Raise (if _validate_email email
                    then user_already_exists else invalid_email_format), w)) /\
    (forall token r w0,
        email_token_rows token (working w0) = [r] ->
        EmailToken.email r = email ->
        email_tokens_for email (working (snd (_validate_email_token token w0))) = []).
Proof.
  intros email u w Hu Hnone. split; [|split].
  - now rewrite update_email_token_run, Hnone.
  - intros password. rewrite create_email_token_run. simpl.
    destruct (_validate_email email); [now rewrite Hu | reflexivity].
  - intros token r w0 Hr <-. rewrite (_validate_email_token_found token r w0 Hr).
    apply email_tokens_purged_no_rows.
Qed.
End Reset.

Lemma update_email_token_rotates_witness :
  exists w',
    @update_email_token distinct_stubs "alice@example.com" reset_world
      = (Ok "token-", w') /\
    email_token_rows "token-" (working w')
      = [EmailToken.mk "alice@example.com" "hash:pw1" "token-" 50] /\
    email_token_rows "link-1" (working w') = [] /\
    @update_email_token distinct_stubs "carol@example.com" reset_world
      = (Raise email_not_registered, reset_world).
Proof.
  destruct (@update_email_token_rotates distinct_stubs "alice@example.com" reset_world)
    as (_ & _ & Hhit).
  destruct (@update_email_token_rotates distinct_stubs "carol@example.com" reset_world)
    as (_ & Hmiss & _).
  destruct (Hhit (EmailToken.mk "alice@example.com" "hash:pw1" "link-1" 0)
              eq_refl eq_refl eq_refl)
    as (token & w' & Hrun & -> & _ & Hnew & Hold & _).
  exists w'. split; [exact Hrun|]. split; [exact Hnew|].
  split; [apply Hold; discriminate | exact (Hmiss eq_refl)].
Defined.

Lemma reset_password_never_succeeds_witness :
  exists w',
    @reset_password source_stubs "link-1" "new-pw" reset_world = (Raise token_expired, w') /\
    users (working w') = users (working reset_world) /\
    @reset_password source_stubs "link-1" "new-pw" w' = (Raise token_not_found, w').
Proof.
  destruct (@reset_password_never_succeeds source_stubs "link-1" "new-pw" reset_world)
    as [_ Hfound].
  destruct (Hfound (EmailToken.mk "alice@example.com" "hash:pw1" "link-1" 0) eq_refl)
    as (w' & H1 & _ & H2).
  exists w'. split; [exact H1|]. split; [|exact H2].
  destruct (@reset_password_never_succeeds source_stubs "link-1" "new-pw" reset_world)
    as [(e & w'' & Hrun & Husers & _) _].
  rewrite H1 in Hrun. injection Hrun as _ <-. exact Husers.
Defined.

Lemma registered_email_gets_no_link_witness :
  @update_email_token source_stubs "alice@example.com" locked_world
    = (Raise email_not_registered, locked_world) /\
  @create_email_token source_stubs one_token_per_email
     {| uc_email := "alice@example.com"; uc_password := "pw" |} locked_world
    = (Raise user_already_exists, locked_world).
Proof.
  destruct (@registered_email_gets_no_link source_stubs one_token_per_email
              "alice@example.com"
              (User.mk 1 "alice@example.com" "hash:pw1" true None None (Some 0))
              locked_world eq_refl eq_refl) as (Hreset & Hregister & _).
  split; [exact Hreset | exact (Hregister "pw")].
Defined.

(** ** Deleting and updating a user *)

Section Users2.
Context {P : Primitives} {Sch : Schema}.

Lemma hard_delete_user_run user_id u w :
  user_rows user_id (working w) = [u] ->
  hard_delete_user user_id w
    = (Ok "User deleted successfully", deleted_world user_id (User.email u) w).
Proof.
  intros Hu. unfold user_rows in Hu.
  unfold hard_delete_user, logout_user, _delete_email_tokens, delete_users.
  unfold bind, query, gets, execute, commit, modify. simpl.
  rewrite Hu. simpl. rewrite Hu. reflexivity.
Qed.

Lemma get_user_profile_run user_id w :
  get_user_profile user_id w
    = match user_rows user_id (working w) with
      | [] => (Raise user_not_found, w)
      | [user] => (Ok (profile_of user), w)
      | _ => (Raise MultipleResultsFound, w)
      end.
Proof.
  unfold get_user_profile, user_rows, bind, query, gets. simpl.
  now destruct (filter (has_id user_id) (users (working w))) as [|u [|u' l]].
Qed.

(** X16. After [hard_delete_user] returned for a user, the profile of the id
    is NotFound, a token that validated to the id is Unauthorized, and a
    second [hard_delete_user] of the id raises [AttributeError].  The rows of
    other users, their tokens, and the EmailTokens of other emails are as
    before, and so are the game sessions (the operation itself deletes none,
    also not those of the deleted user). *)
Theorem hard_delete_user_aftermath :
  forall (user_id : UUID) (u : User.t) (w : World),
    user_rows user_id (working w) = [u] ->
    exists w',
      hard_delete_user user_id w = (Ok "User deleted successfully", w') /\
      get_user_profile user_id w' = (Raise user_not_found, w') /\
      hard_delete_user user_id w' = (Raise AttributeError, w') /\
      (forall token w0,
          validate_token token w = (Ok user_id, w0) ->
          validate_token token w' = (Raise invalid_token, w')) /\
      filter (fun r => negb (has_id user_id r)) (users (working w'))
        = filter (fun r => negb (has_id user_id r)) (users (working w)) /\
      tokens_of_others user_id (working w') = tokens_of_others user_id (working w) /\
      filter (fun t => negb (for_email (User.email u) t)) (email_tokens (working w'))
        = filter (fun t => negb (for_email (User.email u) t)) (email_tokens (working w)) /\
      game_sessions (working w') = game_sessions (working w).
Proof.
  intros user_id u w Hu. exists (deleted_world user_id (User.email u) w).
  assert (Hgone : user_rows user_id (working (deleted_world user_id (User.email u) w)) = []).
  { unfold user_rows, deleted_world. simpl. apply filter_filter_neg. }
  split; [now apply hard_delete_user_run|].
  split; [now rewrite get_user_profile_run, Hgone|].
  split.
  { unfold hard_delete_user, bind, query, gets. simpl.
    unfold user_rows in Hgone. simpl in Hgone. now rewrite Hgone. }
  split.
  { intros token w0 Hvalid.
    destruct (logged_out_revokes user_id token w w0 Hvalid) as [_ Hrevoked].
    rewrite validate_token_run in *. unfold deleted_world. simpl.
    simpl in Hrevoked.
    destruct (filter _ (filter _ (tokens (working w)))) as [|td [|td' l]];
      try discriminate. reflexivity. }
  unfold deleted_world, tokens_of_others. simpl. repeat split.
  - induction (users (working w)) as [|r l IH]; simpl; [reflexivity|].
    destruct (has_id user_id r) eqn:E; simpl; [exact IH | rewrite E; simpl; now rewrite IH].
  - apply (tokens_of_others_idem user_id (working w)).
  - induction (email_tokens (working w)) as [|r l IH]; simpl; [reflexivity|].
    destruct (for_email (User.email u) r) eqn:E; simpl;
      [exact IH | rewrite E; simpl; now rewrite IH].
Qed.

Lemma update_user_ok user_id user w u' w' :
  update_user user_id user w = (Ok u', w') ->
  exists u,
    user_rows user_id (working w) = [u] /\
    u' = values (new_user_data user) u /\
    w' = updated_world user_id user w.
Proof.
  unfold update_user, update_users_values, updated_world, user_rows.
  destruct (new_user_data user) as [|kv nud]; [discriminate|].
  unfold update_users_returning.
  cbv beta iota delta [bind query gets scalar_one_or_none ret raise execute modify commit].
  destruct (update_violates _ _ _ _); [discriminate|].
  destruct (filter (has_id user_id) (users (working w))) as [|u [|u2 l]]; simpl;
    try discriminate.
  intros H. injection H as <- <-. exists u. now repeat split.
Qed.

(** X17. What [update_user] returned is what [get_user_profile] then shows:
    after an update that returned, the profile of the id carries the
    returned row's email and names, which are the ones the update gave where
    it gave one.  The profile of an id without a row is NotFound; reading a
    profile changes nothing. *)
Theorem update_user_then_profile :
  forall (user_id : UUID) (user : UserUpdate) (w w' : World) (u' : User.t),
    update_user user_id user w = (Ok u', w') ->
    get_user_profile user_id w' = (Ok (profile_of u'), w') /\
    (forall email, uu_email user = Some email -> pr_email (profile_of u') = email) /\
    (forall name, uu_first_name user = Some name ->
                  pr_first_name (profile_of u') = name) /\
    (forall name, uu_last_name user = Some name ->
                  pr_last_name (profile_of u') = name) /\
    (forall other,
        user_rows other (working w') = [] ->
        get_user_profile other w' = (Raise user_not_found, w')).
Proof.
  intros user_id user w w' u' Hok.
  destruct (update_user_ok _ _ _ _ _ Hok) as (u & Hu & -> & ->).
  destruct (values_fields user u) as (_ & He & _ & Hf & Hl & _).
  split.
  - rewrite get_user_profile_run. unfold user_rows, updated_world in *. simpl.
    rewrite filter_update_same, Hu; [reflexivity|].
    intros r. unfold has_id. now rewrite values_keeps_id.
  - split; [|split; [|split]].
    + intros email Hemail. unfold profile_of. simpl. now rewrite He, Hemail.
    + intros name Hname. unfold profile_of. simpl. now rewrite Hf, Hname.
    + intros name Hname. unfold profile_of. simpl. now rewrite Hl, Hname.
    + intros other Hnone. now rewrite get_user_profile_run, Hnone.
Qed.
End Users2.

Lemma hard_delete_user_aftermath_witness :
  exists w',
    hard_delete_user 1 orphan_world = (Ok "User deleted successfully", w') /\
    @get_user_profile source_stubs 1 w' = (Raise user_not_found, w') /\
    hard_delete_user 1 w' = (Raise AttributeError, w') /\
    validate_token "live" w' = (Raise invalid_token, w') /\
    validate_token "stale" w' = (Ok 9, w').
Proof.
  destruct (@hard_delete_user_aftermath source_stubs 1 alice orphan_world eq_refl)
    as (w' & H1 & H2 & H3 & H4 & _ & Hothers & _).
  exists w'. split; [exact H1|]. split; [exact H2|]. split; [exact H3|].
  split; [exact (H4 "live" orphan_world eq_refl)|].
  rewrite validate_token_run.
  assert (Hw' : w' = deleted_world 1 "alice@example.com" orphan_world).
  { rewrite (hard_delete_user_run 1 alice orphan_world eq_refl) in H1.
    now injection H1 as <-. }
  now rewrite Hw'.
Defined.

Lemma update_user_then_profile_witness :
  exists u' w',
    @update_user source_stubs 1 rename_alice orphan_world = (Ok u', w') /\
    pr_first_name (@profile_of source_stubs u') = "Alice" /\
    @get_user_profile source_stubs 1 w' = (Ok (@profile_of source_stubs u'), w').
Proof.
  pose (r := @update_user source_stubs 1 rename_alice orphan_world).
  pose (w' := snd r).
  pose (u' := values (@new_user_data source_stubs rename_alice) alice).
  assert (Hrun : @update_user source_stubs 1 rename_alice orphan_world = (Ok u', w'))
    by reflexivity.
  destruct (@update_user_then_profile source_stubs 1 rename_alice orphan_world w' u' Hrun)
    as (Hprofile & _ & Hfirst & _).
  exists u', w'. split; [exact Hrun|]. split; [exact (Hfirst "Alice" eq_refl) | exact Hprofile].
Defined.

(** ** Token strings stay unique *)

Lemma NoDup_map_filter {A B} (key : A -> B) (p : A -> bool) (l : list A) :
  NoDup (map key l) -> NoDup (map key (filter p l)).
Proof.
  induction l as [|a l IH]; simpl; intros H; [constructor|].
  inversion H as [|x xs Hnotin Hrest]; subst.
  destruct (p a); simpl; [constructor|]; auto.
  intros Hin. apply Hnotin. apply in_map_iff in Hin as (r & Hr & Hin).
  apply filter_In in Hin as [Hin _]. apply in_map_iff. now exists r.
Qed.

Lemma NoDup_map_snoc {A B} (key : A -> B) (l : list A) (a : A) :
  NoDup (map key l) -> ~ In (key a) (map key l) -> NoDup (map key (l ++ [a])).
Proof.
  intros Hl Ha. rewrite map_app. simpl.
  induction l as [|x l IH]; simpl in *; [constructor; [intros []|constructor]|].
  inversion Hl as [|y ys Hnotin Hrest]; subst. constructor.
  - intros Hin. apply in_app_or in Hin as [Hin | [Heq | []]]; [now apply Hnotin|].
    apply Ha. now left.
  - apply IH; [exact Hrest|]. intros Hin. apply Ha. now right.
Qed.

Lemma unique_key_at_most_one {A} (key : A -> string) (k : string) (l : list A) :
  NoDup (map key l) -> length (filter (fun r => String.eqb (key r) k) l) <= 1.
Proof.
  induction l as [|a l IH]; simpl; intros H; [lia|].
  inversion H as [|x xs Hnotin Hrest]; subst.
  destruct (String.eqb (key a) k) eqn:E; simpl; [|now apply IH].
  apply String.eqb_eq in E. subst k.
  replace (filter (fun r => String.eqb (key r) (key a)) l) with (@nil A); [simpl; lia|].
  symmetry. destruct (filter _ l) as [|r rs] eqn:F; [reflexivity|].
  assert (Hr : In r (filter (fun r => String.eqb (key r) (key a)) l))
    by (rewrite F; now left).
  apply filter_In in Hr as [Hr Hk]. apply String.eqb_eq in Hk.
  exfalso. apply Hnotin. rewrite <- Hk. now apply in_map.
Qed.

Section UniqueTokens.
Context {P : Primitives} {Sch : Schema}.

Lemma add_token_keeps_unique (row : AccessToken.t) :
  preserves (both unique_tokens) (add_token_and_commit row).
Proof.
  intros w [Hw Hc]. unfold add_token_and_commit, bind, query, gets. simpl.
  destruct (token_insert_violates row (tokens (working w))) eqn:Hv; simpl.
  - split; exact Hc.
  - assert (Hnew : unique_tokens (with_tokens (fun l => l ++ [row]) (working w))).
    { unfold unique_tokens. simpl. apply NoDup_map_snoc; [exact Hw|].
      intros Hin. apply in_map_iff in Hin as (r & Hr & Hin).
      unfold token_insert_violates in Hv.
      assert (Hex : existsb (fun r => String.eqb (AccessToken.token r)
                                                 (AccessToken.token row))
                            (tokens (working w)) = true).
      { apply existsb_exists. exists r. split; [exact Hin|].
        rewrite Hr. apply String.eqb_refl. }
      congruence. }
    split; exact Hnew.
Qed.

(** X18. Token strings stay unique.  Started on a session with no open
    transaction in which no two AccessTokens carry the same string, any
    sequence of requests, whatever each returns or raises, leaves a state in
    which that is still so; there [validate_token] either returns a user id
    or raises Unauthorized, and never fails on an ambiguous lookup. *)
Theorem token_strings_stay_unique :
  forall (ops : list Operation) (w : World),
    committed w = working w ->
    unique_tokens (working w) ->
    unique_tokens (working (run_all ops w)) /\
    unique_tokens (committed (run_all ops w)) /\
    (forall token,
        validate_token token (run_all ops w) = (Raise invalid_token, run_all ops w) \/
        exists user_id,
          validate_token token (run_all ops w) = (Ok user_id, run_all ops w)).
Proof.
  intros ops w Hclean Hunique.
  assert (Hkept : both unique_tokens (run_all ops w)).
  { apply (frame_run_all unique_tokens).
    - intros f s H. exact H.
    - intros p s H. unfold unique_tokens in *. simpl. now apply NoDup_map_filter.
    - exact add_token_keeps_unique.
    - intros f s H. exact H.
    - intros data user_id w0 [Hw Hc]. rewrite save_game_route_run.
      destruct (gp_id (sg_game_session data)) as [sid|].
      + destruct (session_rows sid w0) as [|g [|g' l]]; simpl; now split.
      + simpl. now split.
    - split; [|rewrite Hclean]; exact Hunique. }
  destruct Hkept as [Hw Hc]. split; [exact Hw|]. split; [exact Hc|].
  intros token. rewrite validate_token_run.
  pose proof (unique_key_at_most_one AccessToken.token token _ Hw) as Hlen.
  destruct (filter _ (tokens (working (run_all ops w)))) as [|td [|td' l]].
  - now left.
  - right. now exists (AccessToken.user_id td).
  - simpl in Hlen. lia.
Qed.
End UniqueTokens.

Lemma token_strings_stay_unique_witness :
  unique_tokens
    (working (@run_all distinct_stubs one_token_per_email
                [LoginUser alice_login; LogoutUser 1; LoginUser alice_login;
                 LoginUser alice_login]
                alice_hashed_world)).
Proof.
  refine (proj1 (@token_strings_stay_unique distinct_stubs one_token_per_email
                   [LoginUser alice_login; LogoutUser 1; LoginUser alice_login;
                    LoginUser alice_login]
                   alice_hashed_world eq_refl _)).
  constructor.
Defined.

(** ** The insert loop of [create_user] *)

Section InsertLoop.
Context {P : Primitives} {Sch : Schema}.

Lemma create_user_attempts_step attempt rest pending_rollback user_data w :
  create_user_attempts (attempt :: rest) pending_rollback user_data w
    = if pending_rollback then (Raise PendingRollbackError, do_draw w)
      else if attempt_rejected user_data w
      then (if Nat.eqb attempt 2
            then (Raise internal_error, after_rejection w)
            else create_user_attempts rest true user_data (after_rejection w))
      else (Ok (candidate_user user_data w), inserted_world user_data w).
Proof.
  destruct pending_rollback; [reflexivity|].
  simpl. unfold try_except_IntegrityError, add_user_and_commit, attempt_rejected,
    candidate_user, inserted_world, after_rejection.
  cbv beta iota delta [bind query gets draw clock ret raise rollback execute commit modify].
  simpl.
  destruct (user_insert_violates _ (users (working w))); [|reflexivity].
  now destruct (Nat.eqb attempt 2).
Qed.

Lemma taken_email_rejected user_data w :
  users_with_email (EmailToken.email user_data) (working w) <> [] ->
  attempt_rejected user_data w = true.
Proof.
  intros Htaken. unfold attempt_rejected, user_insert_violates, users_with_email in *.
  destruct (filter (has_email (EmailToken.email user_data)) (users (working w)))
    as [|u l] eqn:E; [contradiction|].
  assert (Hu : In u (filter (has_email (EmailToken.email user_data)) (users (working w))))
    by (rewrite E; now left).
  apply filter_In in Hu as [Hin Hemail]. apply existsb_exists. exists u.
  split; [exact Hin|]. unfold has_email in Hemail. simpl. rewrite Hemail.
  apply orb_true_r.
Qed.

(** X19. The insert loop of [create_user] makes one attempt that counts.
    An attempt whose row the store accepts ends the loop: the user returned
    is stored and committed, active, with the email and hash of the
    EmailToken.  After a rejected attempt the handler does not roll the
    Session back, so the second attempt draws its UUID and its commit
    raises the untyped [PendingRollbackError], which the handler does not
    catch: the third attempt and the InternalError (500) of the handler are
    never reached, at most two UUIDs are drawn, and nothing is committed,
    the working store being the one last committed.  That is the outcome
    whenever a User already has the email. *)
Theorem create_user_attempts_no_retry :
  forall (user_data : EmailToken.t) (w : World),
    (attempt_rejected user_data w = false ->
     create_user_attempts (seq 0 3) false user_data w
       = (Ok (candidate_user user_data w), inserted_world user_data w)) /\
    (attempt_rejected user_data w = true ->
     create_user_attempts (seq 0 3) false user_data w
       = (Raise PendingRollbackError, refused_world w)) /\
    (users_with_email (EmailToken.email user_data) (working w) <> [] ->
     create_user_attempts (seq 0 3) false user_data w
       = (Raise PendingRollbackError, refused_world w)) /\
    fst (create_user_attempts (seq 0 3) false user_data w) <> Raise internal_error /\
    entropy (snd (create_user_attempts (seq 0 3) false user_data w)) <= entropy w + 2 /\
    (forall e w',
        create_user_attempts (seq 0 3) false user_data w = (Raise e, w') ->
        working w' = committed w /\ committed w' = committed w) /\
    (forall u w',
        create_user_attempts (seq 0 3) false user_data w = (Ok u, w') ->
        In u (users (working w')) /\ committed w' = working w' /\
        User.email u = EmailToken.email user_data /\
        User.password u = EmailToken.password user_data /\
        User.is_active u = true).
Proof.
  intros user_data w. change (seq 0 3) with [0; 1; 2].
  rewrite !create_user_attempts_step. simpl Nat.eqb. cbv iota.
  fold (refused_world w).
  split; [now intros ->|]. split; [now intros ->|]. split; [|split; [|split; [|split]]].
  - intros Htaken. now rewrite (taken_email_rejected user_data w Htaken).
  - destruct (attempt_rejected user_data w); simpl; discriminate.
  - destruct (attempt_rejected user_data w); simpl; lia.
  - intros e w'. destruct (attempt_rejected user_data w); [|discriminate].
    intros H. injection H as _ <-. now split.
  - intros u w'. destruct (attempt_rejected user_data w); [discriminate|].
    intros H. injection H as <- <-. repeat split.
    simpl. apply in_or_app. right. now left.
Qed.
End InsertLoop.

Lemma create_user_attempts_no_retry_witness :
  (exists w',
     @create_user_attempts source_stubs
        (seq 0 3) false (EmailToken.mk "alice@example.com" "h" "link" 0) alice_world
       = (Raise PendingRollbackError, w') /\
     entropy w' = 2 /\ users (working w') = users (working alice_world)) /\
  (exists w',
     @create_user_attempts source_stubs
        (seq 0 3) false (EmailToken.mk "bob@example.com" "h" "link" 0) alice_world
       = (Ok (User.mk 0 "bob@example.com" "h" true None None (Some 10)), w')).
Proof.
  destruct (@create_user_attempts_no_retry source_stubs
              (EmailToken.mk "alice@example.com" "h" "link" 0) alice_world)
    as (_ & _ & Htaken & _).
  destruct (@create_user_attempts_no_retry source_stubs
              (EmailToken.mk "bob@example.com" "h" "link" 0) alice_world)
    as (Hfree & _).
  split.
  - eexists. split; [apply Htaken; discriminate|]. split; reflexivity.
  - eexists. exact (Hfree eq_refl).
Defined.

(** ** Registering twice, and logins of different users *)

Lemma filter_filter_keep {A} (p q : A -> bool) (l : list A) (r : A) :
  filter p l = [r] -> q r = true -> filter p (filter q l) = [r].
Proof.
  revert r. induction l as [|x l IH]; simpl; intros r Hp Hq; [discriminate|].
  destruct (p x) eqn:Ex.
  - injection Hp as -> Hl. rewrite Hq. simpl. rewrite Ex. f_equal.
    clear - Hl. induction l as [|y l IH]; simpl in *; [reflexivity|].
    destruct (p y) eqn:Ey; [discriminate|].
    destruct (q y); simpl; [rewrite Ey|]; now apply IH.
  - destruct (q x); simpl; [rewrite Ex|]; now apply IH.
Qed.

Section Composition.
Context {P : Primitives} {Sch : Schema}.


(** X21. A login does not disturb the sessions of other users: a token that
    validated to another user before the login validates to that user
    after it. *)
Theorem login_keeps_other_sessions :
  forall (user : UserLogin) (u : User.t) (w w' w0 : World) (token other_token : string)
         (other_id : UUID),
    users_with_email (ul_email user) (working w) = [u] ->
    login_user user w = (Ok token, w') ->
    validate_token other_token w = (Ok other_id, w0) ->
    other_id <> User.id u ->
    validate_token other_token w' = (Ok other_id, w') /\
    other_token <> token.
Proof.
  intros user u w w' w0 token other_token other_id Hu Hlogin Hvalid Hother.
  destruct (login_user_ok user w token w' Hlogin)
    as (u1 & _ & wa & Hu1 & _ & Hissue & Htokens & _).
  assert (u1 = u) by congruence. subst u1.
  destruct (_create_access_token_ok _ _ _ _ Hissue) as (-> & -> & Hfree).
  rewrite validate_token_run in Hvalid.
  destruct (filter (fun t => String.eqb (AccessToken.token t) other_token)
                   (tokens (working w))) as [|td [|td' l]] eqn:Hrows; try discriminate.
  injection Hvalid as Hid _.
  assert (Hkept : filter (fun t => String.eqb (AccessToken.token t) other_token)
                         (tokens_of_others (User.id u) (working wa)) = [td]).
  { unfold tokens_of_others. rewrite Htokens. apply filter_filter_keep; [exact Hrows|].
    rewrite Hid. apply negb_true_iff. now apply Nat.eqb_neq. }
  assert (Hdiff : other_token <> generate_token (entropy wa)).
  { intros ->. rewrite Hfree in Hkept. discriminate. }
  split; [|exact Hdiff].
  rewrite validate_token_run. unfold issued_world, new_access_token. simpl.
  rewrite filter_app. fold (tokens_of_others (User.id u) (working wa)).
  rewrite Hkept. simpl. apply String.eqb_neq in Hdiff. rewrite String.eqb_sym in Hdiff.
  rewrite Hdiff. simpl. now rewrite Hid.
Qed.
End Composition.


Lemma login_keeps_other_sessions_witness :
  exists w',
    @login_user distinct_stubs alice_login two_users_world = (Ok "token-", w') /\
    @validate_token "dan-token" w' = (Ok 2, w').
Proof.
  pose (w' := snd (@login_user distinct_stubs alice_login two_users_world)).
  assert (Hlogin : @login_user distinct_stubs alice_login two_users_world
                   = (Ok "token-", w')) by reflexivity.
  assert (Hother : 2 <> 1) by discriminate.
  destruct (@login_keeps_other_sessions distinct_stubs alice_login
              (User.mk 1 "alice@example.com" "hash:pw1" true None None (Some 0))
              two_users_world w' two_users_world "token-" "dan-token" 2
              eq_refl Hlogin eq_refl Hother) as [Hvalid _].
  exists w'. split; [exact Hlogin | exact Hvalid].
Defined.
